(** * Contact scraper (app.py): extraction, persistence and the fetch flow

    A shallow embedding of [app.py].  Python [str] values are lists of
    Unicode code points; the two compiled patterns of [parse_contacts]
    are terms of a small regex syntax run by a backtracking matcher with
    the priority order of Python's [re] module; SQLite, [requests] and
    the Tk widgets are modelled by the part of their behaviour the
    program observes (rows and constraints, the exception raised by a
    GET, the rows of the Treeview, the message boxes shown). *)

From Stdlib Require Import String Ascii.
From Stdlib Require Import List NArith Bool Lia Arith.
Import ListNotations.

Set Implicit Arguments.

(* ================================================================== *)
(** ** Python strings *)
(* ================================================================== *)

Module Str.

(** A character is a code point, a [str] a sequence of them. *)
Definition char := N.
Definition str := list char.

(** ASCII literals of the source text. *)
Definition lit (s : string) : str := map N_of_ascii (list_ascii_of_string s).

Definition dquote : char := 34%N.
Definition squote : char := 39%N.
Definition newline : char := 10%N.

(** [str.isspace] on one character, which is also what [\s] matches in a
    [str] pattern and what [str.strip()] removes. *)
Definition isspace (c : char) : bool :=
  ((9 <=? c) && (c <=? 13) || (28 <=? c) && (c <=? 32)
   || (c =? 133) || (c =? 160) || (c =? 5760)
   || (8192 <=? c) && (c <=? 8202)
   || (c =? 8232) || (c =? 8233) || (c =? 8239) || (c =? 8287)
   || (c =? 12288))%N.

Fixpoint lstrip (s : str) : str :=
  match s with
  | c :: s' => if isspace c then lstrip s' else s
  | [] => []
  end.

Definition rstrip (s : str) : str := rev (lstrip (rev s)).

(** [s.strip()] *)
Definition strip (s : str) : str := rstrip (lstrip s).

Definition eqb_str (a b : str) : bool :=
  if list_eq_dec N.eq_dec a b then true else false.

(** [s.startswith(t)] *)
Fixpoint starts_with (t s : str) : bool :=
  match t, s with
  | [], _ => true
  | _ :: _, [] => false
  | a :: t', b :: s' => (a =? b)%N && starts_with t' s'
  end.

(** [t in s] *)
Fixpoint occurs (t s : str) : bool :=
  starts_with t s ||
  match s with
  | [] => false
  | _ :: s' => occurs t s'
  end.

(** When [u] is followed by [t], no occurrence of [t] begins inside
    [u]: the first place where [t] can be read is right after [u]. *)
Fixpoint clear_until (t u : str) : bool :=
  match u with
  | [] => true
  | _ :: u' => negb (starts_with t (u ++ t)) && clear_until t u'
  end.

(** The rest of [s] after the prefix [t], when [s] starts with [t]. *)
Fixpoint strip_prefix (t s : str) : option str :=
  match t, s with
  | [], _ => Some s
  | _ :: _, [] => None
  | a :: t', b :: s' => if (a =? b)%N then strip_prefix t' s' else None
  end.

End Str.
Import Str.

(* ================================================================== *)
(** ** The regular expressions of [parse_contacts] and their matcher *)
(* ================================================================== *)

Module Regex.

(** The three named groups of both patterns. *)
Inductive group := Gname | Gtitle | Gemail.

(** What the groups hold during a match attempt; [None] is a group that
    has not taken part yet. *)
Record groups := mkGroups {
  g_name : option str;
  g_title : option str;
  g_email : option str
}.

Definition no_groups : groups := mkGroups None None None.

Definition get (g : group) (e : groups) : option str :=
  match g with
  | Gname => g_name e
  | Gtitle => g_title e
  | Gemail => g_email e
  end.

Definition set (g : group) (t : str) (e : groups) : groups :=
  match g with
  | Gname => mkGroups (Some t) (g_title e) (g_email e)
  | Gtitle => mkGroups (g_name e) (Some t) (g_email e)
  | Gemail => mkGroups (g_name e) (g_title e) (Some t)
  end.

(** The constructs the two patterns are written with.  Every quantifier
    of the source applies to a single character class. *)
Inductive regex :=
| Lit (t : str)                          (* literal text *)
| Cls (p : char -> bool)                 (* one character of a class *)
| Star (greedy : bool) (p : char -> bool)(* [p*] when greedy, [p*?] when lazy *)
| Grp (g : group) (r : regex)            (* [(?P<g>r)] *)
| Ref (g : group)                        (* [(?P=g)] *)
| Cat (r1 r2 : regex).                   (* [r1r2] *)

(** [p+] is one [p] and then [p*]. *)
Definition Plus (p : char -> bool) : regex := Cat (Cls p) (Star true p).

Definition seq (rs : list regex) : regex := fold_right Cat (Lit []) rs.

(** Character classes.  Both patterns are compiled with [re.DOTALL], so
    [.] is any character, the newline too. *)
Definition dot (c : char) : bool := true.
Definition quote (c : char) : bool := ((c =? dquote) || (c =? squote))%N.
Definition not_quote (c : char) : bool := negb (quote c).

(** [.*?] *)
Definition lazy_dots : regex := Star false dot.

Section Matcher.
Variable A : Type.

(** [p*?]: the continuation is tried first, and one more character is
    taken only when it fails. *)
Fixpoint lazy_star (p : char -> bool) (s : str) (k : str -> option A)
  : option A :=
  match k s with
  | Some x => Some x
  | None =>
      match s with
      | c :: s' => if p c then lazy_star p s' k else None
      | [] => None
      end
  end.

(** [p*]: as many characters as possible are taken first, and given back
    one at a time while the continuation fails. *)
Fixpoint greedy_star (p : char -> bool) (s : str) (k : str -> option A)
  : option A :=
  match s with
  | c :: s' =>
      if p c then
        match greedy_star p s' k with
        | Some x => Some x
        | None => k s
        end
      else k s
  | [] => k s
  end.

(** The text read between the input [s] and what is left of it, [s']. *)
Definition consumed (s s' : str) : str :=
  firstn (length s - length s') s.

(** Backtracking match of [r] at the head of [s]; [k] is what remains
    to be matched after [r].  The first success in priority order is
    the result, as in [re]. *)
Fixpoint run (r : regex) (s : str) (e : groups)
    (k : str -> groups -> option A) : option A :=
  match r with
  | Lit t =>
      match strip_prefix t s with
      | Some s' => k s' e
      | None => None
      end
  | Cls p =>
      match s with
      | c :: s' => if p c then k s' e else None
      | [] => None
      end
  | Star true p => greedy_star p s (fun s' => k s' e)
  | Star false p => lazy_star p s (fun s' => k s' e)
  | Grp g r1 => run r1 s e (fun s' e' => k s' (set g (consumed s s') e'))
  | Ref g =>
      match get g e with
      | Some t =>
          match strip_prefix t s with
          | Some s' => k s' e
          | None => None
          end
      | None => None
      end
  | Cat r1 r2 => run r1 s e (fun s' e' => run r2 s' e' k)
  end.

End Matcher.

(** [pattern.match] at the head of [s]: what is left of [s] after the
    match, and the groups. *)
Definition match_at (r : regex) (s : str) : option (str * groups) :=
  run r s no_groups (fun s' e => Some (s', e)).

(** [pattern.finditer(s)]: the matches from left to right, each search
    starting where the previous match ended.  [skip] counts the
    characters still covered by the previous match.  (Neither pattern
    matches the empty string, see [teacher_match_nonempty]; after an
    empty match the search here just moves on by one character.) *)
Fixpoint finditer_aux (r : regex) (s : str) (skip : nat) : list groups :=
  match skip with
  | S n =>
      match s with
      | _ :: s' => finditer_aux r s' n
      | [] => []
      end
  | O =>
      match match_at r s with
      | Some (s', e) =>
          e :: match s with
               | _ :: t => finditer_aux r t (length s - length s' - 1)
               | [] => []
               end
      | None =>
          match s with
          | _ :: t => finditer_aux r t 0
          | [] => []
          end
      end
  end.

Definition finditer (r : regex) (s : str) : list groups :=
  finditer_aux r s 0.

(** [match.group(g)]; every match of the two patterns sets the three
    groups ([teacher_match_groups], [table_match_groups]), so the
    default is never read. *)
Definition group_text (g : group) (m : groups) : str :=
  match get g m with
  | Some t => t
  | None => []
  end.

End Regex.
Import Regex.

(* ================================================================== *)
(** ** [parse_contacts] *)
(* ================================================================== *)

(** A contact: the dict with keys ['name'], ['title'], ['email']. *)
Record Contact := mkContact {
  name : str;
  title : str;
  email : str
}.

Definition NA : str := lit "N/A".

(** [x.strip()] and then [x if x else 'N/A'] *)
Definition field (raw : str) : str :=
  match strip raw with
  | [] => NA
  | t => t
  end.

(** The body of both [for match in matches] loops. *)
Definition contact_of_match (m : groups) : Contact :=
  mkContact (field (group_text Gname m))
            (field (group_text Gtitle m))
            (field (group_text Gemail m)).

(** [<tag\s+attr=["\']value["\'].*?>] *)
Definition open_tag (tag attr value : string) : list regex :=
  [ Lit (lit tag); Plus isspace; Lit (lit attr); Cls quote;
    Lit (lit value); Cls quote; lazy_dots; Lit (lit ">") ].

(** [teacher_pattern], lines 70-76. *)
Definition teacher_pattern : regex :=
  seq (open_tag "<div" "class=" "teacher" ++ [ lazy_dots ] ++
       open_tag "<p" "class=" "name" ++
       [ Grp Gname lazy_dots; Lit (lit "</p>"); lazy_dots ] ++
       open_tag "<p" "class=" "title" ++
       [ Grp Gtitle lazy_dots; Lit (lit "</p>"); lazy_dots ] ++
       [ Lit (lit "<a"); Plus isspace; Lit (lit "href="); Cls quote;
         Lit (lit "mailto:"); Grp Gemail (Plus not_quote); Cls quote;
         lazy_dots; Lit (lit ">"); Ref Gemail; Lit (lit "</a>");
         lazy_dots; Lit (lit "</div>") ]).

(** [<tag.*?>] *)
Definition any_tag (tag : string) : list regex :=
  [ Lit (lit tag); lazy_dots; Lit (lit ">") ].

(** [table_pattern], lines 91-94. *)
Definition table_pattern : regex :=
  seq (any_tag "<tr" ++ [ Star true isspace ] ++
       any_tag "<td" ++ [ Grp Gname lazy_dots; Lit (lit "</td>");
                          Star true isspace ] ++
       any_tag "<td" ++ [ Grp Gtitle lazy_dots; Lit (lit "</td>");
                          Star true isspace ] ++
       any_tag "<td" ++ [ lazy_dots; Lit (lit "mailto:");
                          Grp Gemail (Plus not_quote); Cls quote;
                          lazy_dots; Lit (lit "</td>") ]).

(** The contacts appended by the first loop, lines 77-86. *)
Definition primary_records (html : str) : list Contact :=
  map contact_of_match (finditer teacher_pattern html).

(** The contacts appended by the second loop, lines 95-104. *)
Definition secondary_records (html : str) : list Contact :=
  map contact_of_match (finditer table_pattern html).

(** Which of the two patterns a search was made with. *)
Inductive pattern_id := Primary | Secondary.

(** [parse_contacts] with the list [contacts] threaded through and the
    patterns searched recorded in order: the first loop appends to the
    empty list, and the second runs only under [if not contacts]. *)
Definition parse_contacts_run (html : str) : list pattern_id * list Contact :=
  let contacts := primary_records html in
  match contacts with
  | [] => ([Primary; Secondary], contacts ++ secondary_records html)
  | _ :: _ => ([Primary], contacts)
  end.

Definition parse_contacts (html : str) : list Contact :=
  snd (parse_contacts_run html).

Definition patterns_searched (html : str) : list pattern_id :=
  fst (parse_contacts_run html).


(* ================================================================== *)
(** ** Notions used in the statements about [parse_contacts] *)
(* ================================================================== *)

(** A string with no whitespace at either end. *)
Definition trimmed (s : str) : Prop :=
  (forall c t, s = c :: t -> isspace c = false) /\
  (forall t c, s = t ++ [c] -> isspace c = false).

(** The relation between a captured text and the field made from it:
    the field is what is left of the text between two runs of
    whitespace, or the sentinel when nothing is left. *)
Definition normalized (raw fld : str) : Prop :=
  fld <> [] /\ trimmed fld /\
  exists l t r, raw = l ++ t ++ r /\
    forallb isspace l = true /\ forallb isspace r = true /\ trimmed t /\
    (t = [] -> fld = NA) /\ (t <> [] -> fld = t).

Module RegexSem.

(** [derives r e u e']: read with the groups [e], the regex [r] can
    match exactly the text [u] and leave the groups [e'].  This is the
    meaning of the syntax without any priority between alternatives. *)
Fixpoint derives (r : regex) (e : groups) (u : str) (e' : groups) : Prop :=
  match r with
  | Lit t => u = t /\ e' = e
  | Cls p => exists c, u = [c] /\ p c = true /\ e' = e
  | Star _ p => forallb p u = true /\ e' = e
  | Grp g r1 => exists e1, derives r1 e u e1 /\ e' = set g u e1
  | Ref g => get g e = Some u /\ e' = e
  | Cat r1 r2 =>
      exists u1 u2 e1, u = u1 ++ u2 /\ derives r1 e u1 e1 /\ derives r2 e1 u2 e'
  end.

(** The groups a regex sets on every match. *)
Fixpoint sets (g : group) (r : regex) : bool :=
  match r with
  | Grp g' r1 =>
      match g, g' with
      | Gname, Gname | Gtitle, Gtitle | Gemail, Gemail => true
      | _, _ => sets g r1
      end
  | Cat r1 r2 => sets g r1 || sets g r2
  | _ => false
  end.

(** The least number of characters a match takes, back-references
    counted as none. *)
Fixpoint min_len (r : regex) : nat :=
  match r with
  | Lit t => length t
  | Cls _ => 1
  | Star _ _ => 0
  | Grp _ r1 => min_len r1
  | Ref _ => 0
  | Cat r1 r2 => min_len r1 + min_len r2
  end.

(** The next character, if there is one, is not in the class: a greedy
    repetition of [p] cannot go further. *)
Definition stops (p : char -> bool) (s : str) : Prop :=
  match s with
  | c :: _ => p c = false
  | [] => True
  end.

End RegexSem.
Import RegexSem.

(* ================================================================== *)
(** ** Markup of the two shapes the patterns are written for *)
(* ================================================================== *)

Module Markup.

Definition nonempty (s : str) : bool :=
  match s with
  | [] => false
  | _ :: _ => true
  end.

(** The variable parts of an opening tag [<tag attr='value' ...>] whose
    distinguishing attribute comes first: the whitespace after the tag
    name, the two quote characters, and whatever follows the attribute
    up to the closing [>]. *)
Record otag := mkOtag {
  sp : str;
  q1 : char;
  q2 : char;
  attrs : str
}.

Definition otag_ok (o : otag) : bool :=
  nonempty (sp o) && forallb isspace (sp o) && quote (q1 o) && quote (q2 o).

Definition render_otag (tag cls : string) (o : otag) (rest : str) : str :=
  lit tag ++ sp o ++ lit "class=" ++ q1 o :: lit cls ++ q2 o :: attrs o
    ++ lit ">" ++ rest.

(** A teacher container: the four opening tags, the three texts, and the
    text between the parts. *)
Record block := mkBlock {
  b_div : otag;
  b_gap1 : str;
  b_pname : otag;
  b_name : str;
  b_gap2 : str;
  b_ptitle : otag;
  b_title : str;
  b_gap3 : str;
  b_a : otag;
  b_email : str;
  b_gap4 : str
}.

(** The container as text, followed by [rest].  The address is written
    twice: in the [href] and as the text of the link. *)
Definition render_block (b : block) (rest : str) : str :=
  render_otag "<div" "teacher" (b_div b) (b_gap1 b ++
  render_otag "<p" "name" (b_pname b) (b_name b ++ lit "</p>" ++ b_gap2 b ++
  render_otag "<p" "title" (b_ptitle b) (b_title b ++ lit "</p>" ++ b_gap3 b ++
  lit "<a" ++ sp (b_a b) ++ lit "href=" ++ q1 (b_a b) :: lit "mailto:" ++
  b_email b ++ q2 (b_a b) :: attrs (b_a b) ++ lit ">" ++
  b_email b ++ lit "</a>" ++ b_gap4 b ++ lit "</div>" ++ rest))).

(** What every match of the primary pattern satisfies. *)
Definition block_shape (b : block) : bool :=
  otag_ok (b_div b) && otag_ok (b_pname b) && otag_ok (b_ptitle b) &&
  otag_ok (b_a b) && nonempty (b_email b) && forallb not_quote (b_email b).

(** Each part ends at the first place where the text that closes it can
    be read. *)
Definition block_clear (b : block) : bool :=
  clear_until (lit ">") (attrs (b_div b)) &&
  clear_until (lit "<p") (b_gap1 b) &&
  clear_until (lit ">") (attrs (b_pname b)) &&
  clear_until (lit "</p>") (b_name b) &&
  clear_until (lit "<p") (b_gap2 b) &&
  clear_until (lit ">") (attrs (b_ptitle b)) &&
  clear_until (lit "</p>") (b_title b) &&
  clear_until (lit "<a") (b_gap3 b) &&
  clear_until (lit ">") (attrs (b_a b)) &&
  clear_until (lit "</div>") (b_gap4 b).

Definition block_contact (b : block) : Contact :=
  mkContact (field (b_name b)) (field (b_title b)) (field (b_email b)).

(** A document of containers, each preceded by some text in which no
    container opens, and a trailer. *)
Definition wf_item (pb : str * block) : bool :=
  clear_until (lit "<div") (fst pb) &&
  block_shape (snd pb) && block_clear (snd pb).

Definition render_blocks (bs : list (str * block)) (trailer : str) : str :=
  fold_right (fun pb acc => fst pb ++ render_block (snd pb) acc) trailer bs.

(** A table row of three cells, the third holding a [mailto:] reference
    closed by a quote. *)
Record row := mkRow {
  r_tr : str;       (* the rest of the [<tr] tag *)
  r_ws1 : str;
  r_td1 : str;      (* the rest of the first [<td] tag *)
  r_name : str;
  r_ws2 : str;
  r_td2 : str;
  r_title : str;
  r_ws3 : str;
  r_td3 : str;
  r_before : str;   (* third cell, before [mailto:] *)
  r_email : str;
  r_q : char;
  r_after : str     (* third cell, after the closing quote *)
}.

Definition render_row (r : row) (rest : str) : str :=
  lit "<tr" ++ r_tr r ++ lit ">" ++ r_ws1 r ++
  lit "<td" ++ r_td1 r ++ lit ">" ++ r_name r ++ lit "</td>" ++ r_ws2 r ++
  lit "<td" ++ r_td2 r ++ lit ">" ++ r_title r ++ lit "</td>" ++ r_ws3 r ++
  lit "<td" ++ r_td3 r ++ lit ">" ++ r_before r ++ lit "mailto:" ++
  r_email r ++ r_q r :: r_after r ++ lit "</td>" ++ rest.

Definition wf_row (r : row) : bool :=
  clear_until (lit ">") (r_tr r) && forallb isspace (r_ws1 r) &&
  clear_until (lit ">") (r_td1 r) && clear_until (lit "</td>") (r_name r) &&
  forallb isspace (r_ws2 r) &&
  clear_until (lit ">") (r_td2 r) && clear_until (lit "</td>") (r_title r) &&
  forallb isspace (r_ws3 r) &&
  clear_until (lit ">") (r_td3 r) && clear_until (lit "mailto:") (r_before r) &&
  nonempty (r_email r) && forallb not_quote (r_email r) && quote (r_q r) &&
  clear_until (lit "</td>") (r_after r).

Definition row_contact (r : row) : Contact :=
  mkContact (field (r_name r)) (field (r_title r)) (field (r_email r)).

Definition wf_row_item (pr : str * row) : bool :=
  clear_until (lit "<tr") (fst pr) && wf_row (snd pr).

Definition render_rows (rs : list (str * row)) (trailer : str) : str :=
  fold_right (fun pr acc => fst pr ++ render_row (snd pr) acc) trailer rs.

End Markup.
Import Markup.

(* ================================================================== *)
(** ** Python control flow: exceptions, [try], local variables *)
(* ================================================================== *)

Module Py.

(** The exception classes that occur: those of [sqlite3], those of
    [requests], the one raised when a local variable is read before
    any assignment to it, the two raised when a [str] cannot be handed
    to SQLite, and any class that none of the [except] clauses of the
    program names. *)
Inductive sqlite_error :=
| IntegrityError      (* a constraint of the table failed *)
| OperationalError.   (* any other [sqlite3.Error] *)

(** [requests.exceptions]; [ConnectTimeout] is declared a subclass of
    both [ConnectionError] and [Timeout], [ProxyError] and [SSLError]
    of [ConnectionError], [ReadTimeout] of [Timeout], and all of them
    of [RequestException]. *)
Inductive request_exception :=
| HTTPError
| ConnectionError
| ProxyError
| SSLError
| ConnectTimeout
| ReadTimeout
| Timeout
| TooManyRedirects
| InvalidURL
| RequestException.

Inductive exn :=
| SqliteError (e : sqlite_error)
| RequestError (e : request_exception)
| UnboundLocalError
| UnicodeEncodeError   (* a [str] with a lone surrogate has no UTF-8 form *)
| OverflowError        (* a [str] of more than [INT_MAX] bytes *)
| Foreign (cls : string). (* another class, by its name *)

(** The [except] clauses of the program, as tests on the exception
    raised. *)
Definition is_sqlite_Error (x : exn) : bool :=
  match x with
  | SqliteError _ => true
  | _ => false
  end.

Definition is_IntegrityError (x : exn) : bool :=
  match x with
  | SqliteError IntegrityError => true
  | _ => false
  end.

Definition is_HTTPError (x : exn) : bool :=
  match x with
  | RequestError HTTPError => true
  | _ => false
  end.

Definition is_ConnectionError (x : exn) : bool :=
  match x with
  | RequestError (ConnectionError | ProxyError | SSLError | ConnectTimeout) => true
  | _ => false
  end.

Definition is_Timeout (x : exn) : bool :=
  match x with
  | RequestError (Timeout | ConnectTimeout | ReadTimeout) => true
  | _ => false
  end.

Definition is_RequestException (x : exn) : bool :=
  match x with
  | RequestError _ => true
  | _ => false
  end.

(** How a statement or a call ends. *)
Inductive outcome (A : Type) :=
| Ret (a : A)
| Raise (x : exn).
Arguments Ret {A} a.
Arguments Raise {A} x.

(** A computation on a state [S] that returns or raises. *)
Definition M (S A : Type) : Type := S -> outcome A * S.

Section Monad.
Variable S : Type.

Definition ret {A} (a : A) : M S A := fun s => (Ret a, s).

Definition bind {A B} (m : M S A) (f : A -> M S B) : M S B :=
  fun s =>
    match m s with
    | (Ret a, s') => f a s'
    | (Raise x, s') => (Raise x, s')
    end.

Definition raise {A} (x : exn) : M S A := fun s => (Raise x, s).

(** The first [except] clause that accepts the exception. *)
Fixpoint handler_for {A} (hs : list ((exn -> bool) * M S A)) (x : exn)
  : option (M S A) :=
  match hs with
  | [] => None
  | (accepts, h) :: hs' => if accepts x then Some h else handler_for hs' x
  end.

(** [try: body except ...: ...] *)
Definition try_except {A} (body : M S A) (hs : list ((exn -> bool) * M S A))
  : M S A :=
  fun s =>
    match body s with
    | (Ret a, s') => (Ret a, s')
    | (Raise x, s') =>
        match handler_for hs x with
        | Some h => h s'
        | None => (Raise x, s')
        end
    end.

(** [try: body finally: fin]: [fin] runs however [body] ends, and an
    exception raised by [fin] replaces the outcome of [body]. *)
Definition try_finally {A} (body : M S A) (fin : M S unit) : M S A :=
  fun s =>
    let (r, s') := body s in
    match fin s' with
    | (Ret _, s'') => (r, s'')
    | (Raise x, s'') => (Raise x, s'')
    end.

(** [for x in xs: body] *)
Fixpoint for_each {X} (xs : list X) (body : X -> M S unit) : M S unit :=
  match xs with
  | [] => ret tt
  | x :: xs' => bind (body x) (fun _ => for_each xs' body)
  end.

End Monad.

Arguments ret {S A} a.
Arguments raise {S A} x.

(** The local variables of a function body next to the state [S]; here
    the one local that is read on a path where it may be unassigned. *)
Section Locals.
Variables S V : Type.

Definition lift {A} (m : M S A) : M (S * option V) A :=
  fun sf =>
    let (r, s') := m (fst sf) in (r, (s', snd sf)).

Definition assign (v : V) : M (S * option V) unit :=
  fun sf => (Ret tt, (fst sf, Some v)).

Definition read : M (S * option V) V :=
  fun sf =>
    match snd sf with
    | Some v => (Ret v, sf)
    | None => (Raise UnboundLocalError, sf)
    end.

(** A call: the body starts with the local unassigned, and the local is
    gone when the call ends. *)
Definition call {A} (body : M (S * option V) A) : M S A :=
  fun s => let (r, sf) := body (s, None) in (r, fst sf).

End Locals.

Arguments lift {S V A} m.
Arguments assign {S V} v.
Arguments read {S V}.
Arguments call {S V A} body.

End Py.
Import Py.

Notation "x <- m ;; k" := (bind m (fun x => k))
  (at level 61, m at next level, right associativity).
Notation "m ;;; k" := (bind m (fun _ => k))
  (at level 61, right associativity).

(* ================================================================== *)
(** ** The surroundings of the program *)
(* ================================================================== *)

Module Env.

(** A row of the table [contacts]. *)
Record StoredContact := mkStored {
  iid : N;
  s_name : str;
  s_title : str;
  s_email : str
}.

(** The table and the largest [iid] it has given out
    ([AUTOINCREMENT]). *)
Record table := mkTable {
  rows : list StoredContact;
  last_iid : N
}.

Definition empty_table : table := mkTable [] 0%N.

(** What is behind a database name: a place where no database can be
    opened or created; a file that opens but on which every statement
    fails (locked, not a database, ...); or a database, with or without
    the table [contacts]. *)
Inductive file_state :=
| Unopenable
| Unusable
| Db (t : option table).

Definition has_email (e : str) (t : table) : bool :=
  existsb (fun r => eqb_str (s_email r) e) (rows t).

(** The largest [iid] the table holds or has given out, and the one an
    [AUTOINCREMENT] column gives next. *)
Definition largest_iid (t : table) : N :=
  fold_right N.max (last_iid t) (map iid (rows t)).

Definition next_iid (t : table) : N := (1 + largest_iid t)%N.

(** The limits of what SQLite and the [sqlite3] module take: the
    largest rowid, the largest length in bytes of a value or a record
    (the default of [SQLITE_MAX_LENGTH]), and the largest length of a
    [str] the module binds. *)
Definition MAX_ROWID : N := 9223372036854775807%N.
Definition SQLITE_MAX_LENGTH : N := 1000000000%N.
Definition INT_MAX : N := 2147483647%N.

(** The UTF-8 form of a [str]: none with a lone surrogate, else one to
    four bytes per character. *)
Definition is_surrogate (c : char) : bool :=
  ((55296 <=? c) && (c <=? 57343))%N.

Definition utf8_len (c : char) : N :=
  (if c <? 128 then 1 else if c <? 2048 then 2
   else if c <? 65536 then 3 else 4)%N.

Definition byte_len (s : str) : N :=
  fold_right (fun c n => (utf8_len c + n)%N) 0%N s.

(** Binding one [str] parameter of a statement: the [str] is encoded,
    its length is checked by the module and then by SQLite. *)
Definition bind_text (s : str) : option exn :=
  if existsb is_surrogate s then Some UnicodeEncodeError
  else if (INT_MAX <? byte_len s)%N then Some OverflowError
  else if (SQLITE_MAX_LENGTH <? byte_len s)%N
       then Some (SqliteError OperationalError)
  else None.

(** The parameters are bound in order; the first failure ends it. *)
Fixpoint bind_all (ps : list str) : option exn :=
  match ps with
  | [] => None
  | s :: ps' =>
      match bind_text s with
      | Some x => Some x
      | None => bind_all ps'
      end
  end.

(** The sizes of the records SQLite builds for a row: a header with
    one variable-length integer per column, then the values.  A text
    of [n] bytes has the type [2n+13]; the rowid takes no byte in the
    record of the table and up to eight in the record of the index on
    [email]. *)
Definition varint_len (x : N) : N :=
  (if x <? 128 then 1 else if x <? 16384 then 2
   else if x <? 2097152 then 3 else if x <? 268435456 then 4 else 5)%N.

Definition text_type_len (n : N) : N := varint_len (2 * n + 13).

Definition rowid_len (i : N) : N :=
  (if i <=? 1 then 0 else if i <? 128 then 1 else if i <? 32768 then 2
   else if i <? 8388608 then 3 else if i <? 2147483648 then 4
   else if i <? 140737488355328 then 6 else 8)%N.

Definition index_record_size (e : str) (i : N) : N :=
  (1 + text_type_len (byte_len e) + 1 + byte_len e + rowid_len i)%N.

Definition table_record_size (c : Contact) : N :=
  (1 + 1 + text_type_len (byte_len (name c))
   + text_type_len (byte_len (title c))
   + text_type_len (byte_len (email c))
   + byte_len (name c) + byte_len (title c) + byte_len (email c))%N.

(** [CREATE TABLE IF NOT EXISTS contacts (...)] *)
Definition create_contacts (t : option table) : option table :=
  match t with
  | None => Some empty_table
  | Some t' => Some t'
  end.

(** [INSERT INTO contacts (name, title, email) VALUES (?, ?, ?)] with
    the three fields as parameters.  The steps, in the order in which
    they can fail: the statement is prepared, which needs the table;
    the parameters are bound; the next rowid is taken, which fails when
    the largest has been given out; the record of the index on [email]
    is built, which fails when it is too long; [email] is looked up in
    that index, the column being [UNIQUE]; the record of the row is
    built, which fails when it is too long; the row is written.  Of
    the failures only the lookup gives [IntegrityError]; a failed
    statement leaves the table as it was. *)
Definition insert_contact (c : Contact) (t : option table)
  : exn + option table :=
  match t with
  | None => inl (SqliteError OperationalError)
  | Some t' =>
      match bind_all [name c; title c; email c] with
      | Some x => inl x
      | None =>
          if (MAX_ROWID <=? largest_iid t')%N
          then inl (SqliteError OperationalError)
          else
            let i := next_iid t' in
            if (SQLITE_MAX_LENGTH <? index_record_size (email c) i)%N
            then inl (SqliteError OperationalError)
            else if has_email (email c) t' then inl (SqliteError IntegrityError)
            else if (SQLITE_MAX_LENGTH <? table_record_size c)%N
            then inl (SqliteError OperationalError)
            else
              inr (Some (mkTable
                           (rows t' ++ [mkStored i (name c) (title c) (email c)])
                           i))
      end
  end.

(** An open connection: the database it is on and what it sees, its own
    uncommitted changes included. *)
Record Session := mkSession {
  sess_db : str;
  sess_state : file_state
}.

(** The answer to a GET: a response; a failure that [requests] reports
    as one of its own exceptions; or an exception of another class that
    [requests.get] lets through as it is, such as
    [urllib3.exceptions.LocationParseError] for a URL whose host cannot
    be parsed. *)
Inductive get_result :=
| Responded (status : N) (text : str)
| Failed (e : request_exception)
| Escaped (cls : string).

Inductive severity := Warning | Info | Error.

(** Everything outside the program that it reads or changes. *)
Record World := mkWorld {
  files : str -> file_state;        (* the databases, by name *)
  session : option Session;         (* the connection now open, if any *)
  dialogs : list (severity * str);  (* the message boxes shown: kind, title *)
  tree : list (str * str * str);    (* the rows of the Treeview *)
  http : str -> get_result;         (* what a GET of each URL gives *)
  gets : list (str * N);            (* the GETs made: URL, timeout *)
  url_var : str                     (* the content of the URL entry *)
}.

Definition with_files f (w : World) : World :=
  mkWorld f (session w) (dialogs w) (tree w) (http w) (gets w) (url_var w).
Definition with_session s (w : World) : World :=
  mkWorld (files w) s (dialogs w) (tree w) (http w) (gets w) (url_var w).
Definition with_dialogs d (w : World) : World :=
  mkWorld (files w) (session w) d (tree w) (http w) (gets w) (url_var w).
Definition with_tree t (w : World) : World :=
  mkWorld (files w) (session w) (dialogs w) t (http w) (gets w) (url_var w).
Definition with_gets g (w : World) : World :=
  mkWorld (files w) (session w) (dialogs w) (tree w) (http w) g (url_var w).

Definition update (f : str -> file_state) (k : str) (v : file_state)
  : str -> file_state :=
  fun k' => if eqb_str k' k then v else f k'.

(** [sqlite3.connect(db_name)] *)
Definition sqlite3_connect (db_name : str) : M World str :=
  fun w =>
    match files w db_name with
    | Unopenable => (Raise (SqliteError OperationalError), w)
    | st => (Ret db_name, with_session (Some (mkSession db_name st)) w)
    end.

(** [cursor.execute(...)] with a statement [stmt] on the connection. *)
Definition execute (stmt : option table -> exn + option table)
  : M World unit :=
  fun w =>
    match session w with
    | Some (mkSession db (Db t)) =>
        match stmt t with
        | inr t' => (Ret tt, with_session (Some (mkSession db (Db t'))) w)
        | inl x => (Raise x, w)
        end
    | _ => (Raise (SqliteError OperationalError), w)
    end.

(** [conn.commit()] *)
Definition commit : M World unit :=
  fun w =>
    match session w with
    | Some s => (Ret tt, with_files (update (files w) (sess_db s) (sess_state s)) w)
    | None => (Raise (SqliteError OperationalError), w)
    end.

(** [conn.close()]: what was not committed is lost. *)
Definition close : M World unit :=
  fun w => (Ret tt, with_session None w).

(** [messagebox.showerror], [showwarning], [showinfo]; of the two texts
    the title is kept. *)
Definition messagebox (kind : severity) (ttl : str) : M World unit :=
  fun w => (Ret tt, with_dialogs (dialogs w ++ [(kind, ttl)]) w).

(** [requests.get(url, timeout=t)] *)
Definition requests_get (url : str) (t : N) : M World (N * str) :=
  fun w =>
    let w' := with_gets (gets w ++ [(url, t)]) w in
    match http w url with
    | Responded status text => (Ret (status, text), w')
    | Failed e => (Raise (RequestError e), w')
    | Escaped cls => (Raise (Foreign cls), w')
    end.

(** [response.raise_for_status()] *)
Definition raise_for_status (response : N * str) : M World unit :=
  if ((400 <=? fst response) && (fst response <? 600))%N
  then raise (RequestError HTTPError)
  else ret tt.

(** [for item in tree.get_children(): tree.delete(item)] *)
Definition tree_delete_all : M World unit :=
  fun w => (Ret tt, with_tree [] w).

(** [tree.insert('', tk.END, values=v)] *)
Definition tree_insert (v : str * str * str) : M World unit :=
  fun w => (Ret tt, with_tree (tree w ++ [v]) w).

End Env.
Import Env.

(* ================================================================== *)
(** ** The functions of [app.py] on these surroundings *)
(* ================================================================== *)

(** The titles of the message boxes, as code points. *)
Definition title_db : str :=               (* 資料庫錯誤 *)
  [36039; 26009; 24235; 37679; 35492]%N.
Definition title_http : str :=             (* HTTP錯誤 *)
  lit "HTTP" ++ [37679; 35492]%N.
Definition title_connection : str :=       (* 連線錯誤 *)
  [36899; 32218; 37679; 35492]%N.
Definition title_timeout : str :=          (* 逾時錯誤 *)
  [36926; 26178; 37679; 35492]%N.
Definition title_request : str :=          (* 請求錯誤 *)
  [35531; 27714; 37679; 35492]%N.
Definition title_input : str :=            (* 輸入錯誤 *)
  [36664; 20837; 37679; 35492]%N.
Definition title_success : str :=          (* 成功 *)
  [25104; 21151]%N.
Definition title_result : str :=           (* 結果 *)
  [32080; 26524]%N.

Definition default_db : str := lit "contacts.db".

(** [setup_database], lines 16-31.  [conn] is assigned inside [try] and
    read in [finally]. *)
Definition setup_database (db_name : str) : M World unit :=
  call
    (try_finally
       (try_except
          (conn <- lift (sqlite3_connect db_name) ;;
           assign conn ;;;
           lift (execute (fun t => inr (create_contacts t))) ;;;
           lift commit)
          [ (is_sqlite_Error, lift (messagebox Error title_db)) ])
       (conn <- read ;; lift close)).

(** [save_to_database], lines 41-57. *)
Definition save_to_database (contacts : list Contact) (db_name : str)
  : M World unit :=
  call
    (try_finally
       (try_except
          (conn <- lift (sqlite3_connect db_name) ;;
           assign conn ;;;
           for_each contacts (fun contact =>
             try_except
               (lift (execute (insert_contact contact)))
               [ (is_IntegrityError, ret tt) ]) ;;;
           lift commit)
          [ (is_sqlite_Error, lift (messagebox Error title_db)) ])
       (conn <- read ;; lift close)).

(** [scrape_contacts], lines 116-129; after a handler the function goes
    on to [return None]. *)
Definition scrape_contacts (url : str) : M World (option (list Contact)) :=
  try_except
    (response <- requests_get url 10 ;;
     raise_for_status response ;;;
     ret (Some (parse_contacts (snd response))))
    [ (is_HTTPError, messagebox Error title_http ;;; ret None);
      (is_ConnectionError, messagebox Error title_connection ;;; ret None);
      (is_Timeout, messagebox Error title_timeout ;;; ret None);
      (is_RequestException, messagebox Error title_request ;;; ret None) ].

(** [display_contacts], lines 139-140. *)
Definition display_contacts (contacts : list Contact) : M World unit :=
  for_each contacts (fun contact =>
    tree_insert (name contact, title contact, email contact)).

(** [ContactApp.fetch_contacts], lines 199-216. *)
Definition fetch_contacts : M World unit :=
  fun w =>
    let url := strip (url_var w) in
    match url with
    | [] => messagebox Warning title_input w
    | _ :: _ =>
        (contacts <- scrape_contacts url ;;
         match contacts with
         | Some [] => messagebox Info title_result
         | Some ((_ :: _) as found) =>
             tree_delete_all ;;;
             display_contacts found ;;;
             save_to_database found default_db ;;;
             messagebox Info title_success
         | None => ret tt
         end) w
    end.









(* ================================================================== *)
(** ** Sample markup *)
(* ================================================================== *)

Module Samples.

(** A container written the plain way; [shown] is the text of the
    link. *)
Definition container (n t e shown : string) : str :=
  lit "<div class='teacher'><p class='name'>" ++ lit n ++
  lit "</p><p class='title'>" ++ lit t ++
  lit "</p><a href='mailto:" ++ lit e ++ lit "'>" ++ lit shown ++
  lit "</a></div>".

(** The same with another attribute before [class] in the [div]. *)
Definition container_id_first (n t e : string) : str :=
  lit "<div id='t1' class='teacher'><p class='name'>" ++ lit n ++
  lit "</p><p class='title'>" ++ lit t ++
  lit "</p><a href='mailto:" ++ lit e ++ lit "'>" ++ lit e ++
  lit "</a></div>".

Definition table_row (n t third : string) : str :=
  lit "<tr><td>" ++ lit n ++ lit "</td><td>" ++ lit t ++ lit "</td><td>" ++
  lit third ++ lit "</td></tr>".

Definition contact (n t e : string) : Contact :=
  mkContact (lit n) (lit t) (lit e).

(** Two containers; the link of the first shows a text that is not its
    address. *)
Definition mismatch_then_good : str :=
  container "A" "T" "a@x.edu" "write to me" ++
  container "B" "U" "b@x.edu" "b@x.edu".

(** Two rows of three cells; the third cell of the first has no
    [mailto:]. *)
Definition no_mail_then_good : str :=
  table_row "A" "T" "none" ++
  table_row "C" "Staff" "<a href='mailto:c@x.edu'>c@x.edu</a>".

Definition plain_otag : otag := mkOtag (lit " ") squote squote [].

(** Containers with double quotes, attributes after [class], line
    breaks between and inside the parts, and a blank name. *)
Definition block_a : block :=
  mkBlock (mkOtag (lit " ") dquote dquote (lit " id='t1' data-k='1'"))
          [newline; 32%N; 32%N]
          (mkOtag [32%N; newline] squote squote (lit " lang='en'"))
          (lit "Dr. A")
          (newline :: lit "<br/>")
          plain_otag
          (newline :: lit "Prof" ++ [newline])
          (lit "<span>mail</span> ")
          (mkOtag (lit " ") dquote dquote (lit " target='_blank'"))
          (lit "a@x.edu")
          [newline].

Definition block_b : block :=
  mkBlock plain_otag [] plain_otag (lit "  ") [] plain_otag (lit "TA") []
          plain_otag (lit "b@x.edu") [].

Definition two_blocks : list (str * block) :=
  [ (lit "<html><body>", block_a); ([newline], block_b) ].

(** The one row of the tabular example. *)
Definition row_c : row :=
  mkRow [] [] [] (lit "C") [] [] (lit "Staff") [] []
        (lit "<a href='") (lit "c@x.edu") squote (lit ">c@x.edu</a>").

(** A world with nothing shown and nothing stored yet; every database
    name but [no_such_dir] gives a new database, and every GET fails to
    connect unless said otherwise. *)
Definition no_such_dir : str := lit "/no/such/dir/contacts.db".

Definition quiet (u : str) (shown : list (str * str * str))
    (net : str -> get_result) : World :=
  mkWorld (fun n => if eqb_str n no_such_dir then Unopenable else Db None)
          None [] shown net [] u.

Definition page_url : str := lit "http://x.edu/staff".

Definition serves (status : N) (text : str) (u : str) : get_result :=
  if eqb_str u page_url then Responded status text else Failed ConnectionError.

Definition fails_with (e : request_exception) (u : str) : get_result :=
  Failed e.

(** The view holds a row of an earlier fetch, and the page now has no
    contact in it. *)
Definition shown_before : World :=
  quiet page_url [(lit "Old", lit "Prof", lit "old@x.edu")]
        (serves 200 (lit "<html><body>moved</body></html>")).

(** The entry holds blanks only. *)
Definition blank_entry : World :=
  quiet [32%N; 9%N; 12288%N] [(lit "Old", lit "Prof", lit "old@x.edu")]
        (serves 200 []).


(** A store that already holds the address [a@x.edu]. *)
Definition one_stored : table :=
  mkTable [mkStored 1 (lit "Dr. A") (lit "Prof") (lit "a@x.edu")] 1.

Definition stored_world : World :=
  mkWorld (fun n => if eqb_str n default_db then Db (Some one_stored) else Db None)
          None [] [] (fails_with ConnectionError) [] page_url.

(** A batch with the stored address and one new address twice. *)
Definition batch : list Contact :=
  [ contact "Dr. A" "Professor" "a@x.edu";
    contact "B" "TA" "b@x.edu";
    contact "B again" "TA" "b@x.edu" ].

End Samples.

(* ================================================================== *)
(** ** Further definitions: spans of the markup, start of the program *)
(* ================================================================== *)

(** What every match of the table pattern satisfies: whitespace only
    between the cells, and an address of at least one character with no
    quote in it, closed by a quote. *)
Definition row_shape (r : row) : bool :=
  forallb isspace (r_ws1 r) && forallb isspace (r_ws2 r) &&
  forallb isspace (r_ws3 r) && nonempty (r_email r) &&
  forallb not_quote (r_email r) && quote (r_q r).

(** A text cut into matched spans, each with the text before it, and
    what follows the last span. *)
Definition join_spans (segs : list (str * str)) (trailer : str) : str :=
  fold_right (fun seg acc => fst seg ++ snd seg ++ acc) trailer segs.

(** The row of the Treeview made from a contact (line 140). *)
Definition tree_row (c : Contact) : str * str * str :=
  (name c, title c, email c).




Module MoreSamples.

Definition old_row : str * str * str := (lit "Old", lit "Prof", lit "old@x.edu").

Definition page_with_two : str :=
  Samples.container "Dr. A" "Prof" "a@x.edu" "a@x.edu" ++
  Samples.container "B" "TA" "b@x.edu" "b@x.edu".

Definition serves_at (u0 : str) (status : N) (text : str) (u : str)
  : get_result :=
  if eqb_str u u0 then Responded status text else Failed ConnectionError.


(** The same with a database in which the table was never made. *)
Definition no_table : World :=
  mkWorld (fun _ => Db None)
          None [] [old_row] (serves_at Samples.page_url 200 page_with_two) []
          Samples.page_url.

(** The same where no database can be opened. *)
Definition no_store : World :=
  mkWorld (fun _ => Unopenable)
          None [] [old_row] (serves_at Samples.page_url 200 page_with_two) []
          Samples.page_url.



End MoreSamples.
(* ================================================================== *)
(** ** Facts about strings *)
(* ================================================================== *)


Lemma lstrip_split s :
  exists l, s = l ++ lstrip s /\ forallb isspace l = true.
Proof.
  induction s as [|c s IH]; simpl.
  - exists []; auto.
  - destruct (isspace c) eqn:E.
    + destruct IH as [l [H1 H2]]. exists (c :: l); simpl.
      rewrite E, H2. split; [congruence | reflexivity].
    + exists []; auto.
Qed.

Lemma lstrip_head s c t : lstrip s = c :: t -> isspace c = false.
Proof.
  induction s as [|a s IH]; simpl; [discriminate|].
  destruct (isspace a) eqn:E; auto.
  intros H; injection H as -> _; exact E.
Qed.

Lemma lstrip_snoc s c :
  isspace c = false -> lstrip (s ++ [c]) = lstrip s ++ [c].
Proof.
  intros Hc; induction s as [|a s IH]; simpl.
  - now rewrite Hc.
  - destruct (isspace a); auto.
Qed.

Lemma rstrip_split s :
  exists r, s = rstrip s ++ r /\ forallb isspace r = true.
Proof.
  unfold rstrip. destruct (lstrip_split (rev s)) as [l [H1 H2]].
  exists (rev l). split.
  - rewrite <- rev_app_distr, <- H1. now rewrite rev_involutive.
  - rewrite forallb_forall in *. intros x Hx. apply H2. now apply in_rev.
Qed.

Lemma rstrip_last s t c : rstrip s = t ++ [c] -> isspace c = false.
Proof.
  unfold rstrip. intros H.
  apply (f_equal (@rev char)) in H.
  rewrite rev_involutive, rev_app_distr in H. simpl in H.
  eapply lstrip_head; eauto.
Qed.

Lemma rstrip_cons c s :
  isspace c = false -> rstrip (c :: s) = c :: rstrip s.
Proof.
  intros Hc. unfold rstrip. simpl.
  rewrite lstrip_snoc by assumption.
  now rewrite rev_app_distr.
Qed.

Lemma strip_trimmed s : trimmed (strip s).
Proof.
  unfold strip. split.
  - intros c t H. destruct (lstrip s) as [|a u] eqn:E.
    + discriminate.
    + pose proof (lstrip_head _ E) as Ha.
      rewrite rstrip_cons in H by assumption.
      injection H as -> _. exact Ha.
  - intros t c H. eapply rstrip_last; eauto.
Qed.

(** What [strip] does: it removes a run of whitespace at each end and
    leaves a string with none there. *)
Lemma strip_spec s :
  exists l r, s = l ++ strip s ++ r /\
    forallb isspace l = true /\ forallb isspace r = true /\
    trimmed (strip s).
Proof.
  destruct (lstrip_split s) as [l [H1 H2]].
  destruct (rstrip_split (lstrip s)) as [r [H3 H4]].
  exists l, r. unfold strip at 1. rewrite <- H3.
  auto using strip_trimmed.
Qed.

Lemma NA_trimmed : trimmed NA.
Proof.
  split.
  - intros c t H. vm_compute in H. injection H as <- _. reflexivity.
  - intros t c H. vm_compute in H.
    do 3 (destruct t as [|? t]; [injection H; intros; subst; try reflexivity; discriminate|];
          injection H as _ H).
    destruct t; discriminate.
Qed.


Lemma NA_nonempty : NA <> [].
Proof. discriminate. Qed.

Lemma nil_trimmed : trimmed [].
Proof.
  split; intros; [discriminate|].
  destruct t; discriminate.
Qed.

Lemma field_normalized raw : normalized raw (field raw).
Proof.
  destruct (strip_spec raw) as [l [r [H1 [H2 [H3 H4]]]]].
  unfold normalized, field.
  destruct (strip raw) as [|c t] eqn:E.
  - split; [apply NA_nonempty|]. split; [apply NA_trimmed|].
    exists l, [], r.
    split; [exact H1|]. split; [exact H2|]. split; [exact H3|].
    split; [apply nil_trimmed|]. split; [reflexivity|].
    intros Hx; now elim Hx.
  - split; [discriminate|]. split; [exact H4|].
    exists l, (c :: t), r.
    split; [exact H1|]. split; [exact H2|]. split; [exact H3|].
    split; [exact H4|]. split; [discriminate|reflexivity].
Qed.

(* ================================================================== *)
(** ** The matcher only returns matches *)
(* ================================================================== *)

Module RegexFacts.


Lemma strip_prefix_app t s : strip_prefix t (t ++ s) = Some s.
Proof.
  induction t as [|a t IH]; simpl; auto.
  now rewrite N.eqb_refl.
Qed.

Lemma strip_prefix_Some t s s' : strip_prefix t s = Some s' -> s = t ++ s'.
Proof.
  revert s; induction t as [|a t IH]; simpl; intros s H.
  - congruence.
  - destruct s as [|b s]; [discriminate|].
    destruct (N.eqb_spec a b); [|discriminate].
    subst b. f_equal. auto.
Qed.

Lemma starts_with_strip_prefix t s :
  starts_with t s = false -> strip_prefix t s = None.
Proof.
  revert s; induction t as [|a t IH]; simpl; intros s H.
  - discriminate.
  - destruct s as [|b s]; auto.
    destruct (N.eqb a b); simpl in H; auto.
Qed.

Lemma starts_with_app_l t a w :
  length t <= length a -> starts_with t (a ++ w) = starts_with t a.
Proof.
  revert a; induction t as [|x t IH]; simpl; intros a H; auto.
  destruct a as [|y a]; simpl in *; [lia|].
  rewrite IH by lia. reflexivity.
Qed.

Lemma consumed_app u s : consumed (u ++ s) s = u.
Proof.
  unfold consumed. rewrite length_app.
  replace (length u + length s - length s) with (length u + 0) by lia.
  now rewrite firstn_app_2, app_nil_r.
Qed.

Section Sound.
Variable A : Type.

Lemma lazy_star_sound p s (k : str -> option A) x :
  lazy_star p s k = Some x ->
  exists u s', s = u ++ s' /\ forallb p u = true /\ k s' = Some x.
Proof.
  induction s as [|c s IH]; simpl.
  - destruct (k []) eqn:E; [|discriminate].
    intros H; exists [], []; rewrite E; auto.
  - destruct (k (c :: s)) eqn:E.
    + intros H; exists [], (c :: s); rewrite E; auto.
    + destruct (p c) eqn:Ep; [|discriminate].
      intros H. destruct (IH H) as [u [s' [H1 [H2 H3]]]].
      exists (c :: u), s'; simpl. rewrite Ep, H2. subst s; auto.
Qed.

Lemma greedy_star_sound p s (k : str -> option A) x :
  greedy_star p s k = Some x ->
  exists u s', s = u ++ s' /\ forallb p u = true /\ k s' = Some x.
Proof.
  induction s as [|c s IH]; simpl.
  - intros H; exists [], []; auto.
  - destruct (p c) eqn:Ep.
    + destruct (greedy_star p s k) eqn:E.
      * intros H; injection H as ->.
        destruct (IH eq_refl) as [u [s' [H1 [H2 H3]]]].
        exists (c :: u), s'; simpl. rewrite Ep, H2. subst s; auto.
      * intros H; exists [], (c :: s); auto.
    + intros H; exists [], (c :: s); auto.
Qed.

(** Whatever [run] returns comes from a split of the input into a text
    that [r] derives and a rest accepted by the continuation. *)
Lemma run_sound r : forall s e (k : str -> groups -> option A) x,
  run r s e k = Some x ->
  exists u s' e', s = u ++ s' /\ derives r e u e' /\ k s' e' = Some x.
Proof.
  induction r as [t|p|g p|g r IH|g|r1 IH1 r2 IH2]; simpl; intros s e k x H.
  - destruct (strip_prefix t s) as [s'|] eqn:E; [|discriminate].
    apply strip_prefix_Some in E. exists t, s', e; auto.
  - destruct s as [|c s]; [discriminate|].
    destruct (p c) eqn:Ep; [|discriminate].
    exists [c], s, e. repeat split; auto. exists c; auto.
  - destruct g.
    + apply greedy_star_sound in H. destruct H as [u [s' [H1 [H2 H3]]]].
      exists u, s', e; auto.
    + apply lazy_star_sound in H. destruct H as [u [s' [H1 [H2 H3]]]].
      exists u, s', e; auto.
  - apply IH in H. destruct H as [u [s' [e' [H1 [H2 H3]]]]].
    subst s. rewrite consumed_app in H3.
    exists u, s', (set g u e'). repeat split; auto. exists e'; auto.
  - destruct (get g e) as [t|] eqn:Eg; [|discriminate].
    destruct (strip_prefix t s) as [s'|] eqn:E; [|discriminate].
    apply strip_prefix_Some in E. exists t, s', e; auto.
  - apply IH1 in H. destruct H as [u1 [s1 [e1 [H1 [H2 H3]]]]].
    apply IH2 in H3. destruct H3 as [u2 [s2 [e2 [H4 [H5 H6]]]]].
    exists (u1 ++ u2), s2, e2. subst. rewrite <- app_assoc.
    repeat split; auto. exists u1, u2, e1; auto.
Qed.

End Sound.

Lemma match_at_sound r s s' m :
  match_at r s = Some (s', m) ->
  exists u, s = u ++ s' /\ derives r no_groups u m.
Proof.
  unfold match_at. intros H. apply run_sound in H.
  destruct H as [u [s1 [e1 [H1 [H2 H3]]]]].
  injection H3 as -> ->. eauto.
Qed.



Lemma get_set_same g u e : get g (set g u e) = Some u.
Proof. destruct g; reflexivity. Qed.

Lemma get_set_keep g g' u e :
  get g e <> None -> get g (set g' u e) <> None.
Proof. destruct g, g'; simpl; auto; discriminate. Qed.

Lemma derives_keeps r : forall g e u e',
  derives r e u e' -> get g e <> None -> get g e' <> None.
Proof.
  induction r as [t|p|b p|g0 r IH|g0|r1 IH1 r2 IH2]; simpl; intros g e u e' H Hg.
  - destruct H as [_ ->]; auto.
  - destruct H as [c [_ [_ ->]]]; auto.
  - destruct H as [_ ->]; auto.
  - destruct H as [e1 [H ->]]. apply get_set_keep. eauto.
  - destruct H as [_ ->]; auto.
  - destruct H as [u1 [u2 [e1 [_ [H1 H2]]]]]. eauto.
Qed.

Lemma derives_sets r : forall g e u e',
  derives r e u e' -> sets g r = true -> get g e' <> None.
Proof.
  induction r as [t|p|b p|g0 r IH|g0|r1 IH1 r2 IH2]; simpl; intros g e u e' H Hs;
    try discriminate.
  - destruct H as [e1 [H ->]].
    destruct g, g0; simpl;
      first [discriminate | exact (IH _ _ _ _ H Hs)].
  - destruct H as [u1 [u2 [e1 [_ [H1 H2]]]]].
    apply orb_true_iff in Hs. destruct Hs as [Hs|Hs].
    + eapply derives_keeps; eauto.
    + eauto.
Qed.


Lemma derives_min_len r : forall e u e',
  derives r e u e' -> min_len r <= length u.
Proof.
  induction r as [t|p|b p|g0 r IH|g0|r1 IH1 r2 IH2]; simpl; intros e u e' H.
  - destruct H as [-> _]; auto.
  - destruct H as [c [-> _]]; auto.
  - lia.
  - destruct H as [e1 [H _]]; eauto.
  - lia.
  - destruct H as [u1 [u2 [e1 [-> [H1 H2]]]]].
    rewrite length_app. apply IH1 in H1. apply IH2 in H2. lia.
Qed.

End RegexFacts.
Import RegexFacts.

(* ================================================================== *)
(** ** The matcher on markup of the expected shape *)
(* ================================================================== *)

Module RegexForward.

Lemma clear_until_suffix t u1 : forall u2 w,
  clear_until t (u1 ++ u2) = true -> u2 <> [] ->
  starts_with t (u2 ++ t ++ w) = false.
Proof.
  induction u1 as [|a u1 IH]; intros u2 w H Hne.
  - destruct u2 as [|c u2]; [congruence|].
    simpl app in H. simpl clear_until in H.
    apply andb_true_iff in H. destruct H as [H _].
    apply negb_true_iff in H.
    rewrite app_assoc, starts_with_app_l; [exact H|].
    rewrite length_app; lia.
  - simpl in H. apply andb_true_iff in H. destruct H as [_ H]. auto.
Qed.

Lemma occurs_suffix t s1 : forall s2,
  occurs t (s1 ++ s2) = false -> starts_with t s2 = false.
Proof.
  induction s1 as [|a s1 IH]; intros s2 H.
  - destruct s2; simpl in H; apply orb_false_iff in H; tauto.
  - simpl in H. apply orb_false_iff in H. destruct H as [_ H]. auto.
Qed.

Section Forward.
Variable A : Type.
Implicit Types (k : str -> groups -> option A) (x : A).

Lemma lazy_star_skip p u v (k : str -> option A) x :
  forallb p u = true ->
  (forall u1 u2, u = u1 ++ u2 -> u2 <> [] -> k (u2 ++ v) = None) ->
  k v = Some x ->
  lazy_star p (u ++ v) k = Some x.
Proof.
  induction u as [|c u IH]; intros Hp Hk Hv.
  - simpl. destruct v; simpl; rewrite Hv; reflexivity.
  - simpl in Hp. apply andb_true_iff in Hp. destruct Hp as [Hc Hp].
    assert (H0 : k ((c :: u) ++ v) = None) by (apply (Hk []); [reflexivity | discriminate]).
    simpl in H0. simpl. rewrite H0, Hc. apply IH; auto.
    intros u1 u2 -> Hne. apply (Hk (c :: u1) u2); auto.
Qed.

Lemma greedy_star_all p u v (k : str -> option A) x :
  forallb p u = true -> stops p v -> k v = Some x ->
  greedy_star p (u ++ v) k = Some x.
Proof.
  induction u as [|c u IH]; intros Hp Hs Hv.
  - simpl. destruct v as [|c v]; simpl; auto.
    simpl in Hs. rewrite Hs. exact Hv.
  - simpl in Hp. apply andb_true_iff in Hp. destruct Hp as [Hc Hp].
    simpl. rewrite Hc. rewrite IH; auto.
Qed.

(** One step of a match along a sequence, for each kind of item the
    patterns are made of. *)
Lemma step_lit t r s e k x :
  run r s e k = Some x -> run (Cat (Lit t) r) (t ++ s) e k = Some x.
Proof. simpl. now rewrite strip_prefix_app. Qed.

Lemma step_cls p r c s e k x :
  p c = true -> run r s e k = Some x ->
  run (Cat (Cls p) r) (c :: s) e k = Some x.
Proof. simpl. now intros ->. Qed.

Lemma step_ref g r t s e k x :
  get g e = Some t -> run r s e k = Some x ->
  run (Cat (Ref g) r) (t ++ s) e k = Some x.
Proof. simpl. intros ->. now rewrite strip_prefix_app. Qed.

Lemma step_lazy_lit t r u s e k x :
  clear_until t u = true -> run r s e k = Some x ->
  run (Cat lazy_dots (Cat (Lit t) r)) (u ++ t ++ s) e k = Some x.
Proof.
  intros Hc Hr. simpl. apply lazy_star_skip.
  - apply forallb_forall. reflexivity.
  - intros u1 u2 -> Hne.
    rewrite starts_with_strip_prefix; [reflexivity|].
    eapply clear_until_suffix; eauto.
  - now rewrite strip_prefix_app.
Qed.

Lemma step_grp_lazy_lit g t r u s e k x :
  clear_until t u = true -> run r s (set g u e) k = Some x ->
  run (Cat (Grp g lazy_dots) (Cat (Lit t) r)) (u ++ t ++ s) e k = Some x.
Proof.
  intros Hc Hr. simpl. apply lazy_star_skip.
  - apply forallb_forall. reflexivity.
  - intros u1 u2 -> Hne.
    rewrite starts_with_strip_prefix; [reflexivity|].
    eapply clear_until_suffix; eauto.
  - rewrite strip_prefix_app, consumed_app. exact Hr.
Qed.

Lemma step_star p r u s e k x :
  forallb p u = true -> stops p s -> run r s e k = Some x ->
  run (Cat (Star true p) r) (u ++ s) e k = Some x.
Proof. intros Hp Hs Hr. simpl. now apply greedy_star_all. Qed.

Lemma step_plus p r u s e k x :
  nonempty u = true -> forallb p u = true -> stops p s ->
  run r s e k = Some x ->
  run (Cat (Plus p) r) (u ++ s) e k = Some x.
Proof.
  intros Hn Hp Hs Hr. destruct u as [|c u]; [discriminate|].
  simpl in Hp. apply andb_true_iff in Hp. destruct Hp as [Hc Hp].
  simpl. rewrite Hc. now apply greedy_star_all.
Qed.

Lemma step_grp_plus g p r u s e k x :
  nonempty u = true -> forallb p u = true -> stops p s ->
  run r s (set g u e) k = Some x ->
  run (Cat (Grp g (Plus p)) r) (u ++ s) e k = Some x.
Proof.
  intros Hn Hp Hs Hr. destruct u as [|c u]; [discriminate|].
  simpl in Hp. apply andb_true_iff in Hp. destruct Hp as [Hc Hp].
  simpl. rewrite Hc. apply greedy_star_all; auto.
  change (c :: u ++ s) with ((c :: u) ++ s). now rewrite consumed_app.
Qed.

Lemma step_end s e k x :
  k s e = Some x -> run (Lit []) s e k = Some x.
Proof. auto. Qed.

Lemma run_lit_fail t r s e k :
  starts_with t s = false -> run (Cat (Lit t) r) s e k = None.
Proof. intros H. simpl. now rewrite starts_with_strip_prefix. Qed.

End Forward.

Lemma stops_quote q s : quote q = true -> stops not_quote (q :: s).
Proof. intros H. simpl. unfold not_quote. now rewrite H. Qed.

(** [finditer] along the input. *)
Lemma finditer_aux_skip r u : forall s,
  finditer_aux r (u ++ s) (length u) = finditer_aux r s 0.
Proof. induction u as [|c u IH]; intros s; simpl; auto. Qed.

Lemma finditer_aux_hit r c t s' e :
  match_at r (c :: t) = Some (s', e) ->
  finditer_aux r (c :: t) 0 =
  e :: finditer_aux r t (length (c :: t) - length s' - 1).
Proof. intros H. cbn [finditer_aux]. rewrite H. reflexivity. Qed.

Lemma finditer_aux_miss r c t :
  match_at r (c :: t) = None ->
  finditer_aux r (c :: t) 0 = finditer_aux r t 0.
Proof. intros H. cbn [finditer_aux]. rewrite H. reflexivity. Qed.

Lemma finditer_match r u s m :
  nonempty u = true -> match_at r (u ++ s) = Some (s, m) ->
  finditer r (u ++ s) = m :: finditer r s.
Proof.
  intros Hn H. destruct u as [|c u]; [discriminate|].
  unfold finditer. rewrite <- app_comm_cons in *.
  rewrite (@finditer_aux_hit _ _ _ _ _ H). f_equal.
  replace (length (c :: u ++ s) - length s - 1) with (length u)
    by (cbn [length]; rewrite length_app; lia).
  apply finditer_aux_skip.
Qed.

Lemma finditer_pass r pre : forall s,
  (forall p1 p2, pre = p1 ++ p2 -> p2 <> [] -> match_at r (p2 ++ s) = None) ->
  finditer r (pre ++ s) = finditer r s.
Proof.
  unfold finditer. induction pre as [|c pre IH]; intros s H; auto.
  rewrite <- app_comm_cons. rewrite finditer_aux_miss.
  2:{ rewrite app_comm_cons. apply (H []); [reflexivity | discriminate]. }
  apply IH. intros p1 p2 -> Hne. apply (H (c :: p1) p2); auto.
Qed.

Lemma finditer_none r s :
  (forall s1 s2, s = s1 ++ s2 -> match_at r s2 = None) ->
  finditer r s = [].
Proof.
  unfold finditer. induction s as [|c s IH]; intros H.
  - cbn [finditer_aux]. now rewrite (H [] [] eq_refl).
  - rewrite finditer_aux_miss by (apply (H []); reflexivity).
    apply IH. intros s1 s2 ->. apply (H (c :: s1) s2). reflexivity.
Qed.

End RegexForward.
Import RegexForward.

(* ================================================================== *)
(** ** The matcher finds a match whenever there is one *)
(* ================================================================== *)

Module RegexComplete.

Section Complete.
Variable A : Type.




End Complete.



End RegexComplete.
Import RegexComplete.

(* ================================================================== *)
(** ** The two patterns *)
(* ================================================================== *)

Module Patterns.

Ltac split_andb :=
  repeat match goal with
  | H : _ && _ = true |- _ =>
      apply andb_true_iff in H; destruct H
  end.

Ltac expose_pattern :=
  unfold teacher_pattern, table_pattern, open_tag, any_tag, seq;
  cbn [app fold_right].

(** One step along the pattern and the text, side conditions closed
    from the context. *)
Ltac step :=
  first
    [ apply step_lit
    | apply step_cls; [assumption|]
    | apply step_lazy_lit; [assumption|]
    | apply step_grp_lazy_lit; [assumption|]
    | apply step_plus; [assumption|assumption|reflexivity|]
    | apply step_star; [assumption|reflexivity|]
    | apply step_grp_plus; [assumption|assumption|apply stops_quote; assumption|]
    | apply step_ref; [reflexivity|] ].

Lemma teacher_match_block b rest :
  block_shape b = true -> block_clear b = true ->
  match_at teacher_pattern (render_block b rest) =
  Some (rest, mkGroups (Some (b_name b)) (Some (b_title b)) (Some (b_email b))).
Proof.
  unfold block_shape, block_clear, otag_ok. intros Hs Hc. split_andb.
  unfold match_at, render_block, render_otag. expose_pattern.
  repeat step. apply step_end. reflexivity.
Qed.

Lemma table_match_row r rest :
  wf_row r = true ->
  match_at table_pattern (render_row r rest) =
  Some (rest, mkGroups (Some (r_name r)) (Some (r_title r)) (Some (r_email r))).
Proof.
  unfold wf_row. intros Hw. split_andb.
  unfold match_at, render_row. expose_pattern.
  repeat step. apply step_end. reflexivity.
Qed.

Lemma teacher_needs_div s :
  starts_with (lit "<div") s = false -> match_at teacher_pattern s = None.
Proof.
  intros H. unfold match_at. expose_pattern. now apply run_lit_fail.
Qed.

Lemma table_needs_tr s :
  starts_with (lit "<tr") s = false -> match_at table_pattern s = None.
Proof.
  intros H. unfold match_at. expose_pattern. now apply run_lit_fail.
Qed.

Lemma render_block_app b rest : render_block b rest = render_block b [] ++ rest.
Proof.
  unfold render_block, render_otag.
  repeat (rewrite <- app_assoc || rewrite <- app_comm_cons).
  reflexivity.
Qed.

Lemma render_row_app r rest : render_row r rest = render_row r [] ++ rest.
Proof.
  unfold render_row.
  repeat (rewrite <- app_assoc || rewrite <- app_comm_cons).
  reflexivity.
Qed.

Lemma finditer_teacher_blocks bs trailer :
  forallb wf_item bs = true -> occurs (lit "<div") trailer = false ->
  finditer teacher_pattern (render_blocks bs trailer) =
  map (fun pb => mkGroups (Some (b_name (snd pb))) (Some (b_title (snd pb)))
                          (Some (b_email (snd pb)))) bs.
Proof.
  intros Hwf Htr. induction bs as [|[pre b] bs IH].
  - simpl. apply finditer_none. intros s1 s2 ->.
    apply teacher_needs_div. eapply occurs_suffix; eauto.
  - simpl in Hwf. apply andb_true_iff in Hwf. destruct Hwf as [Hb Hbs].
    unfold wf_item in Hb. simpl fst in Hb. simpl snd in Hb. split_andb.
    cbn [render_blocks fold_right map fst snd].
    fold (render_blocks bs trailer).
    rewrite finditer_pass.
    + rewrite render_block_app.
      rewrite (@finditer_match _ _ _
                 (mkGroups (Some (b_name b)) (Some (b_title b)) (Some (b_email b)))).
      * f_equal. apply IH; assumption.
      * reflexivity.
      * rewrite <- render_block_app. now apply teacher_match_block.
    + intros p1 p2 -> Hne. apply teacher_needs_div.
      unfold render_block, render_otag.
      eapply clear_until_suffix; eauto.
Qed.

Lemma finditer_table_rows rs trailer :
  forallb wf_row_item rs = true -> occurs (lit "<tr") trailer = false ->
  finditer table_pattern (render_rows rs trailer) =
  map (fun pr => mkGroups (Some (r_name (snd pr))) (Some (r_title (snd pr)))
                          (Some (r_email (snd pr)))) rs.
Proof.
  intros Hwf Htr. induction rs as [|[pre r] rs IH].
  - simpl. apply finditer_none. intros s1 s2 ->.
    apply table_needs_tr. eapply occurs_suffix; eauto.
  - simpl in Hwf. apply andb_true_iff in Hwf. destruct Hwf as [Hb Hbs].
    unfold wf_row_item in Hb. simpl fst in Hb. simpl snd in Hb. split_andb.
    cbn [render_rows fold_right map fst snd].
    fold (render_rows rs trailer).
    rewrite finditer_pass.
    + rewrite render_row_app.
      rewrite (@finditer_match _ _ _
                 (mkGroups (Some (r_name r)) (Some (r_title r)) (Some (r_email r)))).
      * f_equal. apply IH; assumption.
      * reflexivity.
      * rewrite <- render_row_app. now apply table_match_row.
    + intros p1 p2 -> Hne. apply table_needs_tr.
      unfold render_row.
      eapply clear_until_suffix; eauto.
Qed.

End Patterns.
Import Patterns.

(* ================================================================== *)
(** ** The shape of every primary match *)
(* ================================================================== *)

Module Shape.

(** Reading a derivation one item at a time. *)
Lemma inv_lit t r e u e' :
  derives (Cat (Lit t) r) e u e' -> exists v, u = t ++ v /\ derives r e v e'.
Proof.
  intros [u1 [u2 [e1 [-> [[-> ->] H]]]]]. eauto.
Qed.

Lemma inv_cls p r e u e' :
  derives (Cat (Cls p) r) e u e' ->
  exists c v, u = c :: v /\ p c = true /\ derives r e v e'.
Proof.
  intros [u1 [u2 [e1 [-> [[c [-> [Hc ->]]] H]]]]]. exists c, u2; auto.
Qed.

Lemma inv_dots r e u e' :
  derives (Cat lazy_dots r) e u e' ->
  exists w v, u = w ++ v /\ derives r e v e'.
Proof.
  intros [u1 [u2 [e1 [-> [[_ ->] H]]]]]. eauto.
Qed.

Lemma inv_grp_dots g r e u e' :
  derives (Cat (Grp g lazy_dots) r) e u e' ->
  exists w v, u = w ++ v /\ derives r (set g w e) v e'.
Proof.
  intros [u1 [u2 [e1 [-> [[e2 [[_ ->] ->]] H]]]]]. eauto.
Qed.

Lemma inv_plus p r e u e' :
  derives (Cat (Plus p) r) e u e' ->
  exists w v, u = w ++ v /\ nonempty w = true /\ forallb p w = true /\
              derives r e v e'.
Proof.
  intros [u1 [u2 [e1 [-> [[a [b [e2 [-> [[c [-> [Hc ->]]] [Hb ->]]]]]] H]]]]].
  exists ([c] ++ b), u2. simpl. rewrite Hc, Hb. auto.
Qed.

Lemma inv_grp_plus g p r e u e' :
  derives (Cat (Grp g (Plus p)) r) e u e' ->
  exists w v, u = w ++ v /\ nonempty w = true /\ forallb p w = true /\
              derives r (set g w e) v e'.
Proof.
  intros [u1 [u2 [e1 [-> [[e3 [[a [b [e2 [-> [[c [-> [Hc ->]]] [Hb ->]]]]]] ->]] H]]]]].
  exists ([c] ++ b), u2. simpl. rewrite Hc, Hb. auto.
Qed.

Lemma inv_ref g r e u e' :
  derives (Cat (Ref g) r) e u e' ->
  exists t v, get g e = Some t /\ u = t ++ v /\ derives r e v e'.
Proof.
  intros [u1 [u2 [e1 [-> [[Hg ->] H]]]]]. eauto.
Qed.

Lemma inv_end e u e' : derives (Lit []) e u e' -> u = [] /\ e' = e.
Proof. intros [-> ->]; auto. Qed.

(** An opening tag of the pattern reads an opening tag of the shape. *)
Lemma inv_open_tag tag cls rs e u e' :
  derives (seq (open_tag tag "class=" cls ++ rs)) e u e' ->
  exists o v, u = render_otag tag cls o v /\ otag_ok o = true /\
              derives (seq rs) e v e'.
Proof.
  unfold open_tag, seq. cbn [app fold_right]. intros H.
  apply inv_lit in H. destruct H as [v1 [-> H]].
  apply inv_plus in H. destruct H as [ws [v2 [-> [Hn [Hw H]]]]].
  apply inv_lit in H. destruct H as [v3 [-> H]].
  apply inv_cls in H. destruct H as [qa [v4 [-> [Hqa H]]]].
  apply inv_lit in H. destruct H as [v5 [-> H]].
  apply inv_cls in H. destruct H as [qb [v6 [-> [Hqb H]]]].
  apply inv_dots in H. destruct H as [at_ [v7 [-> H]]].
  apply inv_lit in H. destruct H as [v8 [-> H]].
  exists (mkOtag ws qa qb at_), v8. unfold render_otag, otag_ok. simpl.
  rewrite Hn, Hw, Hqa, Hqb. auto.
Qed.

Lemma teacher_derives_shape e u m :
  derives teacher_pattern e u m ->
  exists b, u = render_block b [] /\ block_shape b = true /\
            m = set Gemail (b_email b)
                  (set Gtitle (b_title b) (set Gname (b_name b) e)).
Proof.
  unfold teacher_pattern. intros H.
  apply inv_open_tag in H. destruct H as [o1 [v [-> [Ho1 H]]]].
  cbn [app] in H. unfold seq in H. cbn [fold_right] in H.
  apply inv_dots in H. destruct H as [g1 [v1 [-> H]]].
  apply (@inv_open_tag "<p" "name") in H. destruct H as [o2 [v2 [-> [Ho2 H]]]].
  cbn [app] in H. unfold seq in H. cbn [fold_right] in H.
  apply inv_grp_dots in H. destruct H as [n [v3 [-> H]]].
  apply inv_lit in H. destruct H as [v4 [-> H]].
  apply inv_dots in H. destruct H as [g2 [v5 [-> H]]].
  apply (@inv_open_tag "<p" "title") in H. destruct H as [o3 [v6 [-> [Ho3 H]]]].
  cbn [app] in H. unfold seq in H. cbn [fold_right] in H.
  apply inv_grp_dots in H. destruct H as [t [v7 [-> H]]].
  apply inv_lit in H. destruct H as [v8 [-> H]].
  apply inv_dots in H. destruct H as [g3 [v9 [-> H]]].
  apply inv_lit in H. destruct H as [v10 [-> H]].
  apply inv_plus in H. destruct H as [ws [v11 [-> [Hn [Hw H]]]]].
  apply inv_lit in H. destruct H as [v12 [-> H]].
  apply inv_cls in H. destruct H as [qa [v13 [-> [Hqa H]]]].
  apply inv_lit in H. destruct H as [v14 [-> H]].
  apply inv_grp_plus in H. destruct H as [em [v15 [-> [Hen [Hem H]]]]].
  apply inv_cls in H. destruct H as [qb [v16 [-> [Hqb H]]]].
  apply inv_dots in H. destruct H as [at_ [v17 [-> H]]].
  apply inv_lit in H. destruct H as [v18 [-> H]].
  apply inv_ref in H. destruct H as [em' [v19 [Hg [-> H]]]].
  rewrite get_set_same in Hg. injection Hg as <-.
  apply inv_lit in H. destruct H as [v20 [-> H]].
  apply inv_dots in H. destruct H as [g4 [v21 [-> H]]].
  apply inv_lit in H. destruct H as [v22 [-> H]].
  apply inv_end in H. destruct H as [-> ->].
  exists (mkBlock o1 g1 o2 n g2 o3 t g3 (mkOtag ws qa qb at_) em g4).
  split; [reflexivity|]. split; [|reflexivity].
  unfold block_shape. cbn [b_div b_pname b_ptitle b_a b_email].
  rewrite Ho1, Ho2, Ho3. unfold otag_ok. cbn [sp q1 q2].
  rewrite Hn, Hw, Hqa, Hqb, Hen, Hem. reflexivity.
Qed.












Lemma render_otag_app tag cls o v w :
  render_otag tag cls o v ++ w = render_otag tag cls o (v ++ w).
Proof.
  unfold render_otag.
  repeat (rewrite <- app_assoc || rewrite <- app_comm_cons).
  reflexivity.
Qed.

(** The three groups are set by every match of either pattern, and no
    match is empty. *)
Lemma teacher_match_groups s s' m g :
  match_at teacher_pattern s = Some (s', m) -> get g m <> None.
Proof.
  intros H. apply match_at_sound in H. destruct H as [u [_ H]].
  eapply derives_sets; eauto. destruct g; reflexivity.
Qed.

Lemma table_match_groups s s' m g :
  match_at table_pattern s = Some (s', m) -> get g m <> None.
Proof.
  intros H. apply match_at_sound in H. destruct H as [u [_ H]].
  eapply derives_sets; eauto. destruct g; reflexivity.
Qed.

Lemma teacher_match_nonempty s s' m :
  match_at teacher_pattern s = Some (s', m) -> length s' < length s.
Proof.
  intros H. apply match_at_sound in H. destruct H as [u [-> H]].
  apply derives_min_len in H. rewrite length_app.
  assert (0 < min_len teacher_pattern) by (vm_compute; lia). lia.
Qed.

Lemma table_match_nonempty s s' m :
  match_at table_pattern s = Some (s', m) -> length s' < length s.
Proof.
  intros H. apply match_at_sound in H. destruct H as [u [-> H]].
  apply derives_min_len in H. rewrite length_app.
  assert (0 < min_len table_pattern) by (vm_compute; lia). lia.
Qed.

End Shape.
Import Shape.

(* ================================================================== *)
(** ** Statements about [parse_contacts] *)
(* ================================================================== *)

Lemma parse_contacts_cases html :
  (primary_records html <> [] /\
   parse_contacts_run html = ([Primary], primary_records html)) \/
  (primary_records html = [] /\
   parse_contacts_run html = ([Primary; Secondary], secondary_records html)).
Proof.
  unfold parse_contacts_run.
  destruct (primary_records html) as [|c cs].
  - right. auto.
  - left. split; [discriminate | reflexivity].
Qed.

(** C1.  The table pattern is searched exactly when the teacher pattern
    gave no contact; the list returned is then the contacts of the table
    pattern, and otherwise those of the teacher pattern alone.  Each
    match of the teacher pattern gives one contact, so "no contact" and
    "no match" are the same. *)
Theorem fallback_iff_primary_empty (html : str) :
  (In Secondary (patterns_searched html) <-> primary_records html = []) /\
  (primary_records html <> [] ->
     patterns_searched html = [Primary] /\
     parse_contacts html = primary_records html) /\
  (primary_records html = [] ->
     patterns_searched html = [Primary; Secondary] /\
     parse_contacts html = secondary_records html) /\
  length (primary_records html) = length (finditer teacher_pattern html).
Proof.
  unfold patterns_searched, parse_contacts.
  assert (Hlen : length (primary_records html) =
                 length (finditer teacher_pattern html))
    by (unfold primary_records; apply length_map).
  destruct (parse_contacts_cases html) as [[Hne ->]|[He ->]]; simpl.
  - split; [split|split; [|split]].
    + intros [H|[]]. discriminate.
    + intros H. contradiction.
    + auto.
    + intros H. contradiction.
    + exact Hlen.
  - split; [split|split; [|split]].
    + auto.
    + auto.
    + intros H. contradiction.
    + auto.
    + exact Hlen.
Qed.

Lemma fallback_iff_primary_empty_witness :
  patterns_searched Samples.mismatch_then_good = [Primary] /\
  parse_contacts Samples.mismatch_then_good =
    primary_records Samples.mismatch_then_good.
Proof.
  apply (proj1 (proj2 (fallback_iff_primary_empty Samples.mismatch_then_good))).
  vm_compute. discriminate.
Defined.

Lemma contact_of_match_normalized m :
  normalized (group_text Gname m) (name (contact_of_match m)) /\
  normalized (group_text Gtitle m) (title (contact_of_match m)) /\
  normalized (group_text Gemail m) (email (contact_of_match m)).
Proof. unfold contact_of_match; simpl; auto using field_normalized. Qed.

(** C2.  Every contact returned by [parse_contacts] is made from a match
    of one of the two patterns, and each of its fields is the captured
    text without the whitespace at its two ends, or ["N/A"] when nothing
    else is left; no field is the empty string. *)
Theorem parse_contacts_fields_normalized (html : str) (c : Contact) :
  In c (parse_contacts html) ->
  (name c <> [] /\ title c <> [] /\ email c <> []) /\
  exists m,
    (In m (finditer teacher_pattern html) \/
     In m (finditer table_pattern html)) /\
    normalized (group_text Gname m) (name c) /\
    normalized (group_text Gtitle m) (title c) /\
    normalized (group_text Gemail m) (email c).
Proof.
  intros H.
  assert (Hm : exists m,
    (In m (finditer teacher_pattern html) \/
     In m (finditer table_pattern html)) /\ c = contact_of_match m).
  { unfold parse_contacts in H.
    destruct (parse_contacts_cases html) as [[_ E]|[_ E]];
      rewrite E in H; simpl in H; apply in_map_iff in H;
      destruct H as [m [<- Hm]]; exists m; auto. }
  destruct Hm as [m [Hm ->]].
  destruct (contact_of_match_normalized m) as [Hn [Ht He]].
  split.
  - split; [apply Hn|]. split; [apply Ht | apply He].
  - exists m; auto.
Qed.

Lemma parse_contacts_fields_normalized_witness :
  (name (Samples.contact "N/A" "TA" "b@x.edu") <> [] /\
   title (Samples.contact "N/A" "TA" "b@x.edu") <> [] /\
   email (Samples.contact "N/A" "TA" "b@x.edu") <> []) /\
  exists m,
    (In m (finditer teacher_pattern (Samples.container "  " "TA " "b@x.edu" "b@x.edu")) \/
     In m (finditer table_pattern (Samples.container "  " "TA " "b@x.edu" "b@x.edu"))) /\
    normalized (group_text Gname m) (name (Samples.contact "N/A" "TA" "b@x.edu")) /\
    normalized (group_text Gtitle m) (title (Samples.contact "N/A" "TA" "b@x.edu")) /\
    normalized (group_text Gemail m) (email (Samples.contact "N/A" "TA" "b@x.edu")).
Proof.
  apply (parse_contacts_fields_normalized
           (Samples.container "  " "TA " "b@x.edu" "b@x.edu")
           (Samples.contact "N/A" "TA" "b@x.edu")).
  vm_compute. left. reflexivity.
Defined.

(** The round trip of the specification's example: two containers, the
    second with a blank name. *)
Example two_teachers :
  parse_contacts (Samples.container "Dr. A" "Prof" "a@x.edu" "a@x.edu" ++
                  newline ::
                  Samples.container "" "TA" "b@x.edu" "b@x.edu") =
  [ Samples.contact "Dr. A" "Prof" "a@x.edu";
    Samples.contact "N/A" "TA" "b@x.edu" ].
Proof. vm_compute. reflexivity. Qed.






Lemma primary_roundtrip bs trailer :
  forallb wf_item bs = true -> occurs (lit "<div") trailer = false ->
  primary_records (render_blocks bs trailer) =
  map (fun pb => block_contact (snd pb)) bs.
Proof.
  intros Hwf Htr. unfold primary_records.
  rewrite finditer_teacher_blocks by assumption.
  rewrite map_map. reflexivity.
Qed.

(** C4 (amended).  In markup made of containers whose [div], [p] and [a]
    tags have the class (or [href]) as their first attribute, any
    further attributes after it, and any text, line breaks included,
    between and inside the parts, as long as each part ends where its
    closing text first appears, every container gives its own contact:
    no match runs from one container into the next. *)
Theorem primary_matches_each_container
    (bs : list (str * block)) (trailer : str) :
  forallb wf_item bs = true ->
  occurs (lit "<div") trailer = false ->
  primary_records (render_blocks bs trailer) =
    map (fun pb => block_contact (snd pb)) bs /\
  (bs <> [] ->
   parse_contacts (render_blocks bs trailer) =
     map (fun pb => block_contact (snd pb)) bs).
Proof.
  intros Hwf Htr.
  pose proof (primary_roundtrip bs trailer Hwf Htr) as E.
  split; [exact E|].
  intros Hne. unfold parse_contacts, parse_contacts_run. rewrite E.
  destruct bs; [contradiction|reflexivity].
Qed.

Lemma primary_matches_each_container_witness :
  primary_records (render_blocks Samples.two_blocks (lit "</body></html>")) =
    map (fun pb => block_contact (snd pb)) Samples.two_blocks /\
  (Samples.two_blocks <> [] ->
   parse_contacts (render_blocks Samples.two_blocks (lit "</body></html>")) =
     map (fun pb => block_contact (snd pb)) Samples.two_blocks).
Proof.
  apply (primary_matches_each_container Samples.two_blocks (lit "</body></html>"));
    vm_compute; reflexivity.
Defined.

(** With another attribute before [class] in the [div] tag the teacher
    pattern finds nothing, where the same container with [class] first
    gives its contact. *)
Lemma class_must_come_first :
  primary_records (Samples.container_id_first "A" "T" "a@x.edu") = [] /\
  primary_records (Samples.container "A" "T" "a@x.edu" "a@x.edu") =
    [Samples.contact "A" "T" "a@x.edu"].
Proof. vm_compute. auto. Qed.

(** C5 (amended).  When the teacher pattern gives nothing and the markup
    is a sequence of rows of three cells, the cells separated by
    whitespace only, the first holding the name, the second the title
    and the third a quoted [mailto:] reference, [parse_contacts] returns
    one contact per row, in order, with that mapping of cells to
    fields. *)
Theorem fallback_reads_rows (rs : list (str * row)) (trailer : str) :
  forallb wf_row_item rs = true ->
  occurs (lit "<tr") trailer = false ->
  primary_records (render_rows rs trailer) = [] ->
  parse_contacts (render_rows rs trailer) =
    map (fun pr => row_contact (snd pr)) rs.
Proof.
  intros Hwf Htr Hp. unfold parse_contacts, parse_contacts_run.
  rewrite Hp. simpl. unfold secondary_records.
  rewrite finditer_table_rows by assumption.
  rewrite map_map. reflexivity.
Qed.

(** The tabular example: no teacher container and the one row
    ("C", "Staff", "c@x.edu"). *)
Lemma fallback_reads_rows_witness :
  parse_contacts (Samples.table_row "C" "Staff"
                    "<a href='mailto:c@x.edu'>c@x.edu</a>") =
  [Samples.contact "C" "Staff" "c@x.edu"].
Proof.
  apply (fallback_reads_rows [([], Samples.row_c)] (lit "</tr>"));
    vm_compute; reflexivity.
Defined.

(** A row of the right shape that follows a row of three cells without
    a [mailto:] gives no contact of its own: the match that starts in
    the first row takes its address. *)
Lemma row_after_row_without_mail :
  primary_records Samples.no_mail_then_good = [] /\
  parse_contacts Samples.no_mail_then_good =
    [Samples.contact "A" "T" "c@x.edu"] /\
  ~ In (Samples.contact "C" "Staff" "c@x.edu")
       (parse_contacts Samples.no_mail_then_good).
Proof.
  vm_compute. repeat split; auto.
  intros [H|[]]. discriminate.
Qed.

(* ================================================================== *)
(** ** The store *)
(* ================================================================== *)

Module Store.

Lemma eqb_str_true a b : eqb_str a b = true <-> a = b.
Proof.
  unfold eqb_str. destruct (list_eq_dec N.eq_dec a b); split; auto; discriminate.
Qed.

Lemma eqb_str_refl a : eqb_str a a = true.
Proof. now apply eqb_str_true. Qed.

Lemma eqb_str_false a b : eqb_str a b = false <-> a <> b.
Proof.
  unfold eqb_str. destruct (list_eq_dec N.eq_dec a b); split; auto;
    try discriminate; contradiction.
Qed.











Lemma fold_max_ge b l : (b <= fold_right N.max b l)%N.
Proof. induction l as [|x l IH]; simpl; lia. Qed.










End Store.
Import Store.



(** The sample batch on the sample store: the stored address is kept
    with its old row, and of the two contacts with the new address the
    first is stored. *)
Example save_sample :
  files (snd (save_to_database Samples.batch default_db Samples.stored_world)) default_db =
  Db (Some (mkTable [mkStored 1 (lit "Dr. A") (lit "Prof") (lit "a@x.edu");
                     mkStored 2 (lit "B") (lit "TA") (lit "b@x.edu")] 2)).
Proof. vm_compute. reflexivity. Qed.

(* ================================================================== *)
(** ** The fetch flow *)
(* ================================================================== *)

Module Flow.

Lemma lstrip_blank s : forallb isspace s = true -> lstrip s = [].
Proof.
  induction s as [|c s IH]; simpl; auto.
  intros H. apply andb_true_iff in H. destruct H as [-> H]. auto.
Qed.

Lemma strip_blank s : forallb isspace s = true -> strip s = [].
Proof. intros H. unfold strip. now rewrite lstrip_blank. Qed.

Lemma strip_nil_blank s : strip s = [] -> forallb isspace s = true.
Proof.
  intros H. destruct (strip_spec s) as [l [r [E [Hl [Hr _]]]]].
  rewrite H in E. rewrite E. simpl. rewrite forallb_app. now rewrite Hl, Hr.
Qed.

(** [scrape_contacts] in each of the cases of the GET. *)
Lemma scrape_ok url w status text :
  http w url = Responded status text ->
  ((400 <=? status) && (status <? 600))%N = false ->
  scrape_contacts url w =
  (Ret (Some (parse_contacts text)), with_gets (gets w ++ [(url, 10%N)]) w).
Proof.
  intros Hh Hs. unfold scrape_contacts, try_except, bind, requests_get.
  rewrite Hh. unfold raise_for_status. cbn [fst snd]. rewrite Hs.
  reflexivity.
Qed.




End Flow.
Import Flow.

(** C7 (amended).  When the page is fetched and [parse_contacts] finds
    nothing in it, [fetch_contacts] shows one message box of the
    informational kind and nothing else, makes the one GET, and leaves
    the rows of the view and the store as they were: the view is empty
    afterwards only if it was empty before. *)
Theorem empty_result_keeps_view (w : World) (status : N) (text : str) :
  strip (url_var w) <> [] ->
  http w (strip (url_var w)) = Responded status text ->
  ((400 <=? status) && (status <? 600))%N = false ->
  parse_contacts text = [] ->
  fst (fetch_contacts w) = Ret tt /\
  dialogs (snd (fetch_contacts w)) = dialogs w ++ [(Info, title_result)] /\
  tree (snd (fetch_contacts w)) = tree w /\
  files (snd (fetch_contacts w)) = files w /\
  session (snd (fetch_contacts w)) = session w /\
  gets (snd (fetch_contacts w)) = gets w ++ [(strip (url_var w), 10%N)].
Proof.
  intros Hne Hh Hs Hp.
  assert (E : fetch_contacts w =
            (Ret tt,
             with_dialogs (dialogs w ++ [(Info, title_result)])
               (with_gets (gets w ++ [(strip (url_var w), 10%N)]) w))).
  { unfold fetch_contacts.
    destruct (strip (url_var w)) as [|c u]; [contradiction|].
    unfold bind. rewrite (scrape_ok _ _ Hh Hs). rewrite Hp. reflexivity. }
  rewrite E. repeat split; reflexivity.
Qed.

Lemma empty_result_keeps_view_witness :
  fst (fetch_contacts Samples.shown_before) = Ret tt /\
  dialogs (snd (fetch_contacts Samples.shown_before)) =
    dialogs Samples.shown_before ++ [(Info, title_result)] /\
  tree (snd (fetch_contacts Samples.shown_before)) = tree Samples.shown_before /\
  files (snd (fetch_contacts Samples.shown_before)) = files Samples.shown_before /\
  session (snd (fetch_contacts Samples.shown_before)) =
    session Samples.shown_before /\
  gets (snd (fetch_contacts Samples.shown_before)) =
    gets Samples.shown_before ++ [(strip (url_var Samples.shown_before), 10%N)].
Proof.
  apply (@empty_result_keeps_view Samples.shown_before 200%N
           (lit "<html><body>moved</body></html>")).
  - vm_compute. discriminate.
  - vm_compute. reflexivity.
  - reflexivity.
  - vm_compute. reflexivity.
Defined.

(** The view shows a row of an earlier fetch; the page is fetched, no
    contact is found in it, the informational box is shown, and the row
    is still in the view. *)
Lemma view_not_cleared_on_empty_result :
  http Samples.shown_before (strip (url_var Samples.shown_before)) =
    Responded 200 (lit "<html><body>moved</body></html>") /\
  parse_contacts (lit "<html><body>moved</body></html>") = [] /\
  dialogs (snd (fetch_contacts Samples.shown_before)) = [(Info, title_result)] /\
  tree (snd (fetch_contacts Samples.shown_before)) =
    [(lit "Old", lit "Prof", lit "old@x.edu")] /\
  tree (snd (fetch_contacts Samples.shown_before)) <> [].
Proof. vm_compute. repeat split; discriminate. Qed.

(** When the database cannot be opened, [conn] is never assigned: the
    handler shows the error box, and the [finally] clause then reads
    [conn] and raises. *)
Lemma connect_failure_escapes w db :
  files w db = Unopenable ->
  (forall contacts,
     save_to_database contacts db w =
     (Raise UnboundLocalError,
      with_dialogs (dialogs w ++ [(Error, title_db)]) w)) /\
  setup_database db w =
  (Raise UnboundLocalError, with_dialogs (dialogs w ++ [(Error, title_db)]) w).
Proof.
  intros Hf. split; [intros contacts|].
  - unfold save_to_database, call, try_finally, try_except.
    unfold bind at 1. unfold lift at 1, sqlite3_connect. cbn [fst snd].
    rewrite Hf. reflexivity.
  - unfold setup_database, call, try_finally, try_except.
    unfold bind at 1. unfold lift at 1, sqlite3_connect. cbn [fst snd].
    rewrite Hf. reflexivity.
Qed.

(** How the loop of [save_to_database] can end on a table that is
    there: normally, or at the first statement that fails otherwise
    than on the [UNIQUE] column. *)
Lemma bind_all_outcomes ps x :
  bind_all ps = Some x ->
  x = UnicodeEncodeError \/ x = OverflowError \/
  x = SqliteError OperationalError.
Proof.
  induction ps as [|s ps IH]; simpl; [discriminate|].
  unfold bind_text.
  destruct (existsb is_surrogate s); [intros H; injection H as <-; auto|].
  destruct (INT_MAX <? byte_len s)%N; [intros H; injection H as <-; auto|].
  destruct (SQLITE_MAX_LENGTH <? byte_len s)%N;
    [intros H; injection H as <-; auto|].
  exact IH.
Qed.

Lemma insert_contact_outcomes c t :
  (exists t1, insert_contact c (Some t) = inr (Some t1)) \/
  insert_contact c (Some t) = inl (SqliteError IntegrityError) \/
  (exists x, insert_contact c (Some t) = inl x /\
     (x = UnicodeEncodeError \/ x = OverflowError \/
      x = SqliteError OperationalError)).
Proof.
  unfold insert_contact.
  destruct (bind_all [name c; title c; email c]) as [x|] eqn:Eb.
  - right. right. exists x. split; [reflexivity|].
    eapply bind_all_outcomes; eauto.
  - destruct (MAX_ROWID <=? largest_iid t)%N; [right; right; eauto|].
    destruct (SQLITE_MAX_LENGTH <? index_record_size (email c) (next_iid t))%N;
      [right; right; eauto|].
    destruct (has_email (email c) t); [right; left; reflexivity|].
    destruct (SQLITE_MAX_LENGTH <? table_record_size c)%N;
      [right; right; eauto|].
    left. eauto.
Qed.

Lemma loop_outcome db contacts : forall t w (f : option str),
  exists r t2,
    for_each contacts (fun contact =>
      try_except (lift (execute (insert_contact contact)))
                 [ (is_IntegrityError, ret tt) ])
      (with_session (Some (mkSession db (Db (Some t)))) w, f) =
    (r, (with_session (Some (mkSession db (Db (Some t2)))) w, f)) /\
    (r = Ret tt \/ r = Raise UnicodeEncodeError \/ r = Raise OverflowError \/
     r = Raise (SqliteError OperationalError)).
Proof.
  induction contacts as [|c cs IH]; intros t w f.
  - exists (Ret tt), t. split; [reflexivity | now left].
  - cbn [for_each]. unfold bind at 1.
    unfold try_except at 1, lift at 1, execute at 1.
    cbn [fst snd session with_session].
    destruct (insert_contact_outcomes c t) as [[t1 E]|[E|[x [E Hx]]]]; rewrite E.
    + apply (IH t1 w f).
    + cbn [handler_for is_IntegrityError]. unfold ret at 1. apply IH.
    + exists (Raise x), t.
      destruct Hx as [-> | [-> | ->]]; (split; [reflexivity | tauto]).
Qed.

(** On every other path of the two functions the connection is closed.
    [setup_database] returns, after the error box when its statement
    fails; [save_to_database] returns, or ends with the exception
    raised when a field of a contact cannot be bound. *)
Lemma opened_store_is_closed w db :
  files w db <> Unopenable ->
  (forall contacts, exists r w',
     save_to_database contacts db w = (r, w') /\ session w' = None /\
     (r = Ret tt \/ r = Raise UnicodeEncodeError \/ r = Raise OverflowError)) /\
  (exists w',
     setup_database db w = (Ret tt, w') /\ session w' = None /\
     (files w db = Unusable ->
      dialogs w' = dialogs w ++ [(Error, title_db)] /\ files w' = files w)).
Proof.
  intros Hf. split; [intros contacts|].
  - destruct (files w db) as [| |[t|]] eqn:E; [contradiction| | |].
    + unfold save_to_database, call, try_finally, try_except.
      unfold bind at 1. unfold lift at 1, sqlite3_connect. cbn [fst snd].
      rewrite E. destruct contacts as [|c cs]; do 2 eexists;
        (split; [reflexivity|]); (split; [reflexivity|]); now left.
    + unfold save_to_database, call, try_finally, try_except.
      unfold bind at 1. unfold lift at 1, sqlite3_connect. cbn [fst snd].
      rewrite E. unfold bind at 1. unfold assign at 1. cbn [fst snd].
      unfold bind at 1.
      destruct (loop_outcome db contacts t w (Some db)) as [r [t2 [Hl Hr]]].
      unfold try_except in Hl. rewrite Hl.
      destruct Hr as [-> | [-> | [-> | ->]]]; do 2 eexists;
        (split; [reflexivity|]); (split; [reflexivity|]); tauto.
    + unfold save_to_database, call, try_finally, try_except.
      unfold bind at 1. unfold lift at 1, sqlite3_connect. cbn [fst snd].
      rewrite E. destruct contacts as [|c cs]; do 2 eexists;
        (split; [reflexivity|]); (split; [reflexivity|]); now left.
  - unfold setup_database, call, try_finally, try_except.
    unfold bind at 1. unfold lift at 1, sqlite3_connect. cbn [fst snd].
    destruct (files w db) as [| |t] eqn:E; [contradiction| |].
    + eexists. split; [reflexivity|]. split; [reflexivity|].
      intros _. split; reflexivity.
    + eexists. split; [reflexivity|]. split; [reflexivity|].
      intros H. discriminate.
Qed.

(** C8 (the code at the failing input).  With a database name under
    which nothing can be opened, both [setup_database] and
    [save_to_database] show the error box and then end by raising
    [UnboundLocalError] to their caller. *)
Theorem unopenable_store_raises :
  fst (setup_database Samples.no_such_dir (Samples.quiet [] [] (Samples.serves 200 [])))
    = Raise UnboundLocalError /\
  dialogs (snd (setup_database Samples.no_such_dir
                  (Samples.quiet [] [] (Samples.serves 200 []))))
    = [(Error, title_db)] /\
  fst (save_to_database Samples.batch Samples.no_such_dir
         (Samples.quiet [] [] (Samples.serves 200 [])))
    = Raise UnboundLocalError /\
  dialogs (snd (save_to_database Samples.batch Samples.no_such_dir
                  (Samples.quiet [] [] (Samples.serves 200 []))))
    = [(Error, title_db)].
Proof. vm_compute. repeat split; reflexivity. Qed.



(** C10.  When the entry holds nothing but whitespace, [fetch_contacts]
    shows the warning box and returns: no GET is made, and the view and
    the store are untouched. *)
Theorem blank_url_warns (w : World) :
  forallb isspace (url_var w) = true ->
  fetch_contacts w =
    (Ret tt, with_dialogs (dialogs w ++ [(Warning, title_input)]) w) /\
  gets (snd (fetch_contacts w)) = gets w /\
  tree (snd (fetch_contacts w)) = tree w /\
  files (snd (fetch_contacts w)) = files w /\
  session (snd (fetch_contacts w)) = session w.
Proof.
  intros H. unfold fetch_contacts. rewrite (strip_blank _ H).
  repeat split; reflexivity.
Qed.

Lemma blank_url_warns_witness :
  fetch_contacts Samples.blank_entry =
    (Ret tt,
     with_dialogs (dialogs Samples.blank_entry ++ [(Warning, title_input)])
       Samples.blank_entry) /\
  gets (snd (fetch_contacts Samples.blank_entry)) = gets Samples.blank_entry /\
  tree (snd (fetch_contacts Samples.blank_entry)) = tree Samples.blank_entry /\
  files (snd (fetch_contacts Samples.blank_entry)) = files Samples.blank_entry /\
  session (snd (fetch_contacts Samples.blank_entry)) =
    session Samples.blank_entry.
Proof.
  apply (blank_url_warns Samples.blank_entry). vm_compute. reflexivity.
Defined.

(** After [setup_database] has made the table, a fetch that finds
    contacts replaces the rows of the view by them, stores them, and
    reports success. *)
Example fetch_sample :
  let w0 := Samples.quiet Samples.page_url
              [(lit "Old", lit "Prof", lit "old@x.edu")]
              (Samples.serves 200
                 (Samples.container "Dr. A" "Prof" "a@x.edu" "a@x.edu")) in
  let w := fetch_contacts (snd (setup_database default_db w0)) in
  fst w = Ret tt /\
  tree (snd w) = [(lit "Dr. A", lit "Prof", lit "a@x.edu")] /\
  dialogs (snd w) = [(Info, title_success)] /\
  session (snd w) = None /\
  files (snd w) default_db =
    Db (Some (mkTable [mkStored 1 (lit "Dr. A") (lit "Prof") (lit "a@x.edu")] 1)).
Proof. vm_compute. repeat split; reflexivity. Qed.

(* ================================================================== *)
(** ** More about [parse_contacts]: where the contacts come from *)
(* ================================================================== *)

Module Spans.

Lemma join_cons c segs : forall trailer,
  exists segs' trailer',
    c :: join_spans segs trailer = join_spans segs' trailer' /\
    map snd segs' = map snd segs.
Proof.
  destruct segs as [|[pre u] segs]; intros trailer.
  - exists [], (c :: trailer). auto.
  - exists ((c :: pre, u) :: segs), trailer. auto.
Qed.

(** The matches of [finditer] are read from spans of the input that
    follow each other without overlap, in the order of the result. *)
Lemma finditer_aux_spans r s : forall skip,
  exists segs trailer,
    skipn skip s = join_spans segs trailer /\
    Forall2 (fun u m => derives r no_groups u m)
            (map snd segs) (finditer_aux r s skip).
Proof.
  induction s as [|c t IH]; intros skip.
  - destruct skip; cbn [finditer_aux].
    + destruct (match_at r []) as [[s' e]|] eqn:E.
      * apply match_at_sound in E. destruct E as [u [H1 H2]].
        symmetry in H1. apply app_eq_nil in H1. destruct H1 as [-> ->].
        exists [([], [])], []. split; [reflexivity|].
        repeat constructor. exact H2.
      * exists [], []. split; [reflexivity | constructor].
    + exists [], []. split; [reflexivity | constructor].
  - destruct skip as [|n].
    + destruct (match_at r (c :: t)) as [[s' e]|] eqn:E.
      * rewrite (@finditer_aux_hit _ _ _ _ _ E).
        apply match_at_sound in E. destruct E as [u [H1 H2]].
        destruct (IH (length (c :: t) - length s' - 1))
          as [segs [trailer [H3 H4]]].
        destruct u as [|c' u].
        -- simpl in H1. subst s'.
           replace (length (c :: t) - length (c :: t) - 1) with 0 in * by lia.
           simpl in H3. subst t.
           destruct (join_cons c segs trailer) as [segs' [trailer' [H5 H6]]].
           exists (([], []) :: segs'), trailer'. split.
           ++ simpl. exact H5.
           ++ simpl. constructor; [exact H2|]. rewrite H6. exact H4.
        -- simpl in H1. injection H1 as <- ->.
           replace (length (c :: u ++ s') - length s' - 1) with (length u) in *
             by (cbn [length]; rewrite length_app; lia).
           rewrite skipn_app in H3. rewrite skipn_all in H3.
           replace (length u - length u) with 0 in H3 by lia.
           simpl in H3.
           exists (([], c :: u) :: segs), trailer. split.
           ++ simpl. rewrite <- H3. reflexivity.
           ++ simpl. constructor; assumption.
      * rewrite (@finditer_aux_miss _ _ _ E).
        destruct (IH 0) as [segs [trailer [H3 H4]]]. simpl in H3. subst t.
        destruct (join_cons c segs trailer) as [segs' [trailer' [H5 H6]]].
        exists segs', trailer'. split; [exact H5|]. rewrite H6. exact H4.
    + cbn [finditer_aux skipn]. apply IH.
Qed.

Lemma finditer_spans r s :
  exists segs trailer,
    s = join_spans segs trailer /\
    Forall2 (fun u m => derives r no_groups u m)
            (map snd segs) (finditer r s).
Proof. exact (finditer_aux_spans r s 0). Qed.

(** Reading a derivation of the table pattern. *)
Lemma inv_star p r e u e' :
  derives (Cat (Star true p) r) e u e' ->
  exists w v, u = w ++ v /\ forallb p w = true /\ derives r e v e'.
Proof.
  intros [u1 [u2 [e1 [-> [[Hp ->] H]]]]]. eauto.
Qed.

Lemma table_derives_shape e u m :
  derives table_pattern e u m ->
  exists r, u = render_row r [] /\ row_shape r = true /\
            m = set Gemail (r_email r)
                  (set Gtitle (r_title r) (set Gname (r_name r) e)).
Proof.
  unfold table_pattern, any_tag, seq. cbn [app fold_right]. intros H.
  apply inv_lit in H. destruct H as [v1 [-> H]].
  apply inv_dots in H. destruct H as [tr [v2 [-> H]]].
  apply inv_lit in H. destruct H as [v3 [-> H]].
  apply inv_star in H. destruct H as [w1 [v4 [-> [Hw1 H]]]].
  apply inv_lit in H. destruct H as [v5 [-> H]].
  apply inv_dots in H. destruct H as [td1 [v6 [-> H]]].
  apply inv_lit in H. destruct H as [v7 [-> H]].
  apply inv_grp_dots in H. destruct H as [n [v8 [-> H]]].
  apply inv_lit in H. destruct H as [v9 [-> H]].
  apply inv_star in H. destruct H as [w2 [v10 [-> [Hw2 H]]]].
  apply inv_lit in H. destruct H as [v11 [-> H]].
  apply inv_dots in H. destruct H as [td2 [v12 [-> H]]].
  apply inv_lit in H. destruct H as [v13 [-> H]].
  apply inv_grp_dots in H. destruct H as [t [v14 [-> H]]].
  apply inv_lit in H. destruct H as [v15 [-> H]].
  apply inv_star in H. destruct H as [w3 [v16 [-> [Hw3 H]]]].
  apply inv_lit in H. destruct H as [v17 [-> H]].
  apply inv_dots in H. destruct H as [td3 [v18 [-> H]]].
  apply inv_lit in H. destruct H as [v19 [-> H]].
  apply inv_dots in H. destruct H as [bf [v20 [-> H]]].
  apply inv_lit in H. destruct H as [v21 [-> H]].
  apply inv_grp_plus in H. destruct H as [em [v22 [-> [Hen [Hem H]]]]].
  apply inv_cls in H. destruct H as [q [v23 [-> [Hq H]]]].
  apply inv_dots in H. destruct H as [af [v24 [-> H]]].
  apply inv_lit in H. destruct H as [v25 [-> H]].
  apply inv_end in H. destruct H as [-> ->].
  exists (mkRow tr w1 td1 n w2 td2 t w3 td3 bf em q af).
  split; [reflexivity|]. split; [|reflexivity].
  unfold row_shape. cbn [r_ws1 r_ws2 r_ws3 r_email r_q].
  rewrite Hw1, Hw2, Hw3, Hen, Hem, Hq. reflexivity.
Qed.

(** From spans to containers and to rows. *)
Lemma spans_are_blocks segs : forall ms,
  Forall2 (fun u m => derives teacher_pattern no_groups u m)
          (map snd segs) ms ->
  exists bs,
    (forall trailer, join_spans segs trailer = render_blocks bs trailer) /\
    forallb (fun pb => block_shape (snd pb)) bs = true /\
    map contact_of_match ms = map (fun pb => block_contact (snd pb)) bs.
Proof.
  induction segs as [|[pre u] segs IH]; intros ms H.
  - inversion H; subst. exists []. auto.
  - simpl in H. inversion H as [|u' m us ms' Hd Hrest]; subst.
    destruct (IH _ Hrest) as [bs [H1 [H2 H3]]].
    apply teacher_derives_shape in Hd. destruct Hd as [b [-> [Hs ->]]].
    exists ((pre, b) :: bs). split; [|split].
    + intros trailer.
      change (join_spans ((pre, render_block b []) :: segs) trailer)
        with (pre ++ render_block b [] ++ join_spans segs trailer).
      change (render_blocks ((pre, b) :: bs) trailer)
        with (pre ++ render_block b (render_blocks bs trailer)).
      rewrite H1, (render_block_app b (render_blocks bs trailer)).
      reflexivity.
    + simpl. now rewrite Hs.
    + simpl. rewrite H3. reflexivity.
Qed.

Lemma spans_are_rows segs : forall ms,
  Forall2 (fun u m => derives table_pattern no_groups u m)
          (map snd segs) ms ->
  exists rs,
    (forall trailer, join_spans segs trailer = render_rows rs trailer) /\
    forallb (fun pr => row_shape (snd pr)) rs = true /\
    map contact_of_match ms = map (fun pr => row_contact (snd pr)) rs.
Proof.
  induction segs as [|[pre u] segs IH]; intros ms H.
  - inversion H; subst. exists []. auto.
  - simpl in H. inversion H as [|u' m us ms' Hd Hrest]; subst.
    destruct (IH _ Hrest) as [rs [H1 [H2 H3]]].
    apply table_derives_shape in Hd. destruct Hd as [r [-> [Hs ->]]].
    exists ((pre, r) :: rs). split; [|split].
    + intros trailer.
      change (join_spans ((pre, render_row r []) :: segs) trailer)
        with (pre ++ render_row r [] ++ join_spans segs trailer).
      change (render_rows ((pre, r) :: rs) trailer)
        with (pre ++ render_row r (render_rows rs trailer)).
      rewrite H1, (render_row_app r (render_rows rs trailer)).
      reflexivity.
    + simpl. now rewrite Hs.
    + simpl. rewrite H3. reflexivity.
Qed.

Lemma primary_records_blocks html :
  exists bs trailer,
    html = render_blocks bs trailer /\
    forallb (fun pb => block_shape (snd pb)) bs = true /\
    primary_records html = map (fun pb => block_contact (snd pb)) bs.
Proof.
  destruct (finditer_spans teacher_pattern html) as [segs [trailer [H1 H2]]].
  destruct (spans_are_blocks segs H2) as [bs [H3 [H4 H5]]].
  exists bs, trailer. rewrite <- H3. auto.
Qed.

Lemma secondary_records_rows html :
  exists rs trailer,
    html = render_rows rs trailer /\
    forallb (fun pr => row_shape (snd pr)) rs = true /\
    secondary_records html = map (fun pr => row_contact (snd pr)) rs.
Proof.
  destruct (finditer_spans table_pattern html) as [segs [trailer [H1 H2]]].
  destruct (spans_are_rows segs H2) as [rs [H3 [H4 H5]]].
  exists rs, trailer. rewrite <- H3. auto.
Qed.

(** Whitespace stripping keeps a property of all characters. *)
Lemma strip_forallb p s : forallb p s = true -> forallb p (strip s) = true.
Proof.
  intros H. destruct (strip_spec s) as [l [r [E _]]].
  rewrite E in H. rewrite !forallb_app in H.
  apply andb_true_iff in H. destruct H as [_ H].
  apply andb_true_iff in H. tauto.
Qed.

Lemma field_forallb p s :
  forallb p NA = true -> forallb p s = true -> forallb p (field s) = true.
Proof.
  intros Hna H. unfold field.
  pose proof (strip_forallb p s H) as Hs.
  destruct (strip s); [exact Hna | exact Hs].
Qed.

Lemma strip_of_trimmed t : trimmed t -> strip t = t.
Proof.
  intros [Hh Hl]. unfold strip.
  assert (E1 : lstrip t = t).
  { destruct t as [|c t]; [reflexivity|].
    simpl. now rewrite (Hh c t eq_refl). }
  rewrite E1. unfold rstrip.
  assert (E2 : lstrip (rev t) = rev t).
  { destruct (rev t) as [|c u] eqn:E; [reflexivity|].
    simpl. rewrite (Hl (rev u) c); [reflexivity|].
    apply (f_equal (@rev char)) in E. rewrite rev_involutive in E.
    exact E. }
  rewrite E2. apply rev_involutive.
Qed.

End Spans.
Import Spans.

(** X1.  The contacts of the teacher pattern are read from parts of the
    markup that do not overlap and follow each other in the order of
    the result: the markup is a sequence of texts of the container
    shape, each after some other text, and the contacts are those of
    these containers in that order, one each. *)
Theorem primary_records_in_document_order (html : str) :
  exists bs trailer,
    html = render_blocks bs trailer /\
    forallb (fun pb => block_shape (snd pb)) bs = true /\
    primary_records html = map (fun pb => block_contact (snd pb)) bs.
Proof. apply primary_records_blocks. Qed.

(** X2.  When the teacher pattern finds nothing, what [parse_contacts]
    returns is read by the table pattern from parts of the markup that
    do not overlap, in order: each part is a row tag, then three cells
    with only whitespace before each, the first two closed by their end
    tag and the third holding [mailto:], an address of at least one
    character without quotes, a quote, and going on to the next end of
    a cell; the contact has the text of the first cell as name, of the
    second as title, and the address as email. *)
Theorem fallback_records_in_document_order (html : str) :
  primary_records html = [] ->
  exists rs trailer,
    html = render_rows rs trailer /\
    forallb (fun pr => row_shape (snd pr)) rs = true /\
    parse_contacts html = map (fun pr => row_contact (snd pr)) rs.
Proof.
  intros Hp. unfold parse_contacts, parse_contacts_run. rewrite Hp. simpl.
  apply secondary_records_rows.
Qed.

Lemma fallback_records_in_document_order_witness :
  exists rs trailer,
    Samples.no_mail_then_good = render_rows rs trailer /\
    forallb (fun pr => row_shape (snd pr)) rs = true /\
    parse_contacts Samples.no_mail_then_good =
      map (fun pr => row_contact (snd pr)) rs.
Proof.
  apply (fallback_records_in_document_order Samples.no_mail_then_good).
  vm_compute. reflexivity.
Defined.

(** X3.  Markup in which [<div] does not occur gives no contact of the
    teacher pattern, and markup in which neither [<div] nor [<tr]
    occurs gives no contact at all. *)
Theorem no_tag_no_contact (html : str) :
  occurs (lit "<div") html = false ->
  primary_records html = [] /\
  (occurs (lit "<tr") html = false -> parse_contacts html = []).
Proof.
  intros Hd.
  assert (Hp : primary_records html = []).
  { unfold primary_records. rewrite finditer_none; [reflexivity|].
    intros s1 s2 ->. apply teacher_needs_div. eapply occurs_suffix; eauto. }
  split; [exact Hp|]. intros Ht.
  unfold parse_contacts, parse_contacts_run. rewrite Hp. simpl.
  unfold secondary_records. rewrite finditer_none; [reflexivity|].
  intros s1 s2 ->. apply table_needs_tr. eapply occurs_suffix; eauto.
Qed.

Lemma no_tag_no_contact_witness :
  primary_records (lit "<p>Staff: see <a href='mailto:a@x.edu'>a@x.edu</a></p>") = [] /\
  (occurs (lit "<tr") (lit "<p>Staff: see <a href='mailto:a@x.edu'>a@x.edu</a></p>") = false ->
   parse_contacts (lit "<p>Staff: see <a href='mailto:a@x.edu'>a@x.edu</a></p>") = []).
Proof.
  apply (no_tag_no_contact (lit "<p>Staff: see <a href='mailto:a@x.edu'>a@x.edu</a></p>")).
  vm_compute. reflexivity.
Defined.

(** X4.  No contact returned by [parse_contacts] has a quote character,
    single or double, in its email. *)
Theorem email_has_no_quote (html : str) (c : Contact) :
  In c (parse_contacts html) -> forallb not_quote (email c) = true.
Proof.
  intros H. unfold parse_contacts in H.
  destruct (parse_contacts_cases html) as [[_ E]|[_ E]];
    rewrite E in H; simpl in H.
  - destruct (primary_records_blocks html) as [bs [trailer [_ [Hs Hr]]]].
    rewrite Hr in H. apply in_map_iff in H. destruct H as [[pre b] [<- Hb]].
    rewrite forallb_forall in Hs. specialize (Hs _ Hb). simpl in Hs.
    unfold block_shape in Hs. apply andb_true_iff in Hs. destruct Hs as [_ He].
    simpl. apply field_forallb; [reflexivity | exact He].
  - destruct (secondary_records_rows html) as [rs [trailer [_ [Hs Hr]]]].
    rewrite Hr in H. apply in_map_iff in H. destruct H as [[pre r] [<- Hb]].
    rewrite forallb_forall in Hs. specialize (Hs _ Hb). simpl in Hs.
    unfold row_shape in Hs. apply andb_true_iff in Hs. destruct Hs as [Hs _].
    apply andb_true_iff in Hs. destruct Hs as [_ He].
    simpl. apply field_forallb; [reflexivity | exact He].
Qed.

Lemma email_has_no_quote_witness :
  forallb not_quote (email (Samples.contact "A" "T" "c@x.edu")) = true.
Proof.
  apply (email_has_no_quote Samples.no_mail_then_good
           (Samples.contact "A" "T" "c@x.edu")).
  vm_compute. left. reflexivity.
Defined.

(** X5.  Making a field from a field changes nothing: a text that has
    been stripped and given the sentinel when empty comes out of the
    same treatment as it is. *)
Theorem field_idempotent (raw : str) : field (field raw) = field raw.
Proof.
  pose proof (strip_trimmed raw) as Ht.
  destruct (strip raw) as [|c t] eqn:E.
  - assert (F : field raw = NA) by (unfold field; now rewrite E).
    rewrite F. reflexivity.
  - assert (F : field raw = c :: t) by (unfold field; now rewrite E).
    rewrite F. unfold field. rewrite (strip_of_trimmed Ht). reflexivity.
Qed.

(* ================================================================== *)
(** ** More about the store and the fetch flow *)
(* ================================================================== *)

Module FlowFacts.

Lemma bind_Ret S A B (m : M S A) (f : A -> M S B) s a s' :
  m s = (Ret a, s') -> bind m f s = f a s'.
Proof. intros H. unfold bind. now rewrite H. Qed.

Lemma bind_Raise S A B (m : M S A) (f : A -> M S B) s x s' :
  m s = (Raise x, s') -> bind m f s = (Raise x, s').
Proof. intros H. unfold bind. now rewrite H. Qed.

Lemma with_tree_same w : with_tree (tree w) w = w.
Proof. now destruct w. Qed.

(** [display_contacts] on a view that holds the rows [t0]. *)
Lemma display_contacts_from contacts : forall t0 w,
  display_contacts contacts (with_tree t0 w) =
  (Ret tt, with_tree (t0 ++ map tree_row contacts) w).
Proof.
  unfold display_contacts.
  induction contacts as [|c cs IH]; intros t0 w.
  - simpl. now rewrite app_nil_r.
  - cbn [for_each map].
    rewrite (@bind_Ret _ _ _ _ _ _ tt (with_tree (t0 ++ [tree_row c]) w))
      by reflexivity.
    rewrite IH. now rewrite <- app_assoc.
Qed.

(** [setup_database] on a database that opens and takes statements. *)
Lemma setup_database_runs db w t :
  files w db = Db t ->
  setup_database db w =
  (Ret tt,
   with_session None
     (with_files (update (files w) db (Db (create_contacts t))) w)).
Proof.
  intros Hf. unfold setup_database, call, try_finally, try_except.
  unfold bind at 1. unfold lift at 1, sqlite3_connect. cbn [fst snd].
  rewrite Hf. reflexivity.
Qed.

(** [save_to_database] when the first [INSERT] cannot run: there is no
    table, or no statement runs on the file. *)
Lemma save_statement_fails db w c cs :
  files w db = Db None \/ files w db = Unusable ->
  save_to_database (c :: cs) db w =
  (Ret tt,
   with_session None (with_dialogs (dialogs w ++ [(Error, title_db)]) w)).
Proof.
  intros Hf. unfold save_to_database, call, try_finally, try_except.
  unfold bind at 1. unfold lift at 1, sqlite3_connect. cbn [fst snd].
  destruct Hf as [Hf|Hf]; rewrite Hf; reflexivity.
Qed.


Lemma update_same f k v : update f k v k = v.
Proof. unfold update. now rewrite eqb_str_refl. Qed.

Lemma update_other f k v k' : k' <> k -> update f k v k' = f k'.
Proof. intros H. unfold update. apply eqb_str_false in H. now rewrite H. Qed.

(** [fetch_contacts] up to the call of [save_to_database], when the
    page is fetched and holds contacts. *)
Lemma fetch_found w status text c cs :
  strip (url_var w) <> [] ->
  http w (strip (url_var w)) = Responded status text ->
  ((400 <=? status) && (status <? 600))%N = false ->
  parse_contacts text = c :: cs ->
  fetch_contacts w =
  (save_to_database (c :: cs) default_db ;;; messagebox Info title_success)
    (with_tree (map tree_row (c :: cs))
       (with_gets (gets w ++ [(strip (url_var w), 10%N)]) w)).
Proof.
  intros Hne Hh Hs Hp. unfold fetch_contacts.
  destruct (strip (url_var w)) as [|a u] eqn:E; [contradiction|].
  rewrite (@bind_Ret _ _ _ _ _ _ _ _ (scrape_ok _ _ Hh Hs)). rewrite Hp.
  rewrite (@bind_Ret _ _ _ tree_delete_all _ _ tt
             (with_tree [] (with_gets (gets w ++ [(a :: u, 10%N)]) w)))
    by reflexivity.
  rewrite (@bind_Ret _ _ _ _ _ _ _ _ (display_contacts_from (c :: cs) [] _)).
  reflexivity.
Qed.

End FlowFacts.
Import FlowFacts.

(** X6.  [display_contacts] adds one row per contact after the rows the
    view already has, in the order of the list, each row being the
    name, title and email of its contact; it removes nothing and
    touches nothing else. *)
Theorem display_contacts_appends (contacts : list Contact) (w : World) :
  display_contacts contacts w =
  (Ret tt, with_tree (tree w ++ map tree_row contacts) w).
Proof.
  rewrite <- (with_tree_same w) at 1. apply display_contacts_from.
Qed.

(** X7.  On a database that opens, [setup_database] returns without a
    message box and with its connection closed; afterwards the table
    exists, empty if it was not there and unchanged if it was; other
    databases are untouched; and a second call changes nothing. *)
Theorem setup_database_creates_once (w : World) (db : str) (t : option table) :
  files w db = Db t ->
  fst (setup_database db w) = Ret tt /\
  dialogs (snd (setup_database db w)) = dialogs w /\
  session (snd (setup_database db w)) = None /\
  files (snd (setup_database db w)) db =
    Db (Some (match t with Some t0 => t0 | None => empty_table end)) /\
  (forall n, n <> db -> files (snd (setup_database db w)) n = files w n) /\
  files (snd (setup_database db (snd (setup_database db w)))) db =
    files (snd (setup_database db w)) db.
Proof.
  intros Hf. rewrite (setup_database_runs db w Hf). cbn [fst snd].
  assert (Hf1 : files (with_session None
                  (with_files (update (files w) db (Db (create_contacts t))) w)) db
                = Db (create_contacts t)) by apply update_same.
  rewrite (setup_database_runs db _ Hf1). cbn [fst snd].
  split; [reflexivity|]. split; [reflexivity|]. split; [reflexivity|].
  split; [|split].
  - rewrite Hf1. destruct t; reflexivity.
  - intros n Hn. cbn [files with_session with_files]. now apply update_other.
  - cbn [files with_session with_files]. rewrite !update_same.
    destruct t; reflexivity.
Qed.

Lemma setup_database_creates_once_witness :
  fst (setup_database default_db Samples.stored_world) = Ret tt /\
  dialogs (snd (setup_database default_db Samples.stored_world)) =
    dialogs Samples.stored_world /\
  session (snd (setup_database default_db Samples.stored_world)) = None /\
  files (snd (setup_database default_db Samples.stored_world)) default_db =
    Db (Some Samples.one_stored) /\
  (forall n, n <> default_db ->
     files (snd (setup_database default_db Samples.stored_world)) n =
     files Samples.stored_world n) /\
  files (snd (setup_database default_db
                (snd (setup_database default_db Samples.stored_world))))
        default_db =
    files (snd (setup_database default_db Samples.stored_world)) default_db.
Proof.
  apply (@setup_database_creates_once Samples.stored_world default_db
           (Some Samples.one_stored)).
  vm_compute. reflexivity.
Defined.

(** X8.  When the database opens but has no table [contacts], or takes
    no statement, [save_to_database] with at least one contact shows
    the database error box once, returns without raising, closes its
    connection and leaves every database as it was. *)
Theorem save_without_table_reports
    (w : World) (db : str) (c : Contact) (cs : list Contact) :
  files w db = Db None \/ files w db = Unusable ->
  fst (save_to_database (c :: cs) db w) = Ret tt /\
  dialogs (snd (save_to_database (c :: cs) db w)) =
    dialogs w ++ [(Error, title_db)] /\
  session (snd (save_to_database (c :: cs) db w)) = None /\
  files (snd (save_to_database (c :: cs) db w)) = files w.
Proof.
  intros Hf. rewrite (save_statement_fails db w c cs Hf).
  repeat split; reflexivity.
Qed.

Lemma save_without_table_reports_witness :
  fst (save_to_database Samples.batch default_db
         (Samples.quiet [] [] (Samples.serves 200 []))) = Ret tt /\
  dialogs (snd (save_to_database Samples.batch default_db
                  (Samples.quiet [] [] (Samples.serves 200 [])))) =
    dialogs (Samples.quiet [] [] (Samples.serves 200 [])) ++ [(Error, title_db)] /\
  session (snd (save_to_database Samples.batch default_db
                  (Samples.quiet [] [] (Samples.serves 200 [])))) = None /\
  files (snd (save_to_database Samples.batch default_db
                (Samples.quiet [] [] (Samples.serves 200 [])))) =
    files (Samples.quiet [] [] (Samples.serves 200 [])).
Proof.
  apply (@save_without_table_reports
           (Samples.quiet [] [] (Samples.serves 200 [])) default_db
           (Samples.contact "Dr. A" "Professor" "a@x.edu")).
  left. vm_compute. reflexivity.
Defined.





Module FetchFacts.





End FetchFacts.
Import FetchFacts.





(** X13.  When contacts are found but the database has no table
    [contacts] or takes no statement, [fetch_contacts] still replaces
    the rows of the view by the contacts found, shows the database
    error box and after it the success box, and returns; nothing is
    stored. *)
Theorem fetch_reports_success_after_store_error
    (w : World) (status : N) (text : str) :
  strip (url_var w) <> [] ->
  http w (strip (url_var w)) = Responded status text ->
  ((400 <=? status) && (status <? 600))%N = false ->
  parse_contacts text <> [] ->
  files w default_db = Db None \/ files w default_db = Unusable ->
  fst (fetch_contacts w) = Ret tt /\
  tree (snd (fetch_contacts w)) = map tree_row (parse_contacts text) /\
  dialogs (snd (fetch_contacts w)) =
    dialogs w ++ [(Error, title_db); (Info, title_success)] /\
  files (snd (fetch_contacts w)) = files w /\
  session (snd (fetch_contacts w)) = None.
Proof.
  intros Hne Hh Hs Hp Hf.
  destruct (parse_contacts text) as [|c cs] eqn:E; [contradiction|].
  rewrite (fetch_found w Hne Hh Hs E).
  rewrite (@bind_Ret _ _ _ _ _ _ _ _
             (save_statement_fails default_db
                (with_tree (map tree_row (c :: cs))
                   (with_gets (gets w ++ [(strip (url_var w), 10%N)]) w))
                c cs Hf)).
  cbn [fst snd messagebox dialogs tree files session
       with_dialogs with_session with_tree with_gets].
  rewrite <- app_assoc. repeat split; reflexivity.
Qed.

Lemma fetch_reports_success_after_store_error_witness :
  fst (fetch_contacts MoreSamples.no_table) = Ret tt /\
  tree (snd (fetch_contacts MoreSamples.no_table)) =
    map tree_row (parse_contacts MoreSamples.page_with_two) /\
  dialogs (snd (fetch_contacts MoreSamples.no_table)) =
    dialogs MoreSamples.no_table ++ [(Error, title_db); (Info, title_success)] /\
  files (snd (fetch_contacts MoreSamples.no_table)) = files MoreSamples.no_table /\
  session (snd (fetch_contacts MoreSamples.no_table)) = None.
Proof.
  apply (@fetch_reports_success_after_store_error MoreSamples.no_table 200%N
           MoreSamples.page_with_two).
  - vm_compute. discriminate.
  - vm_compute. reflexivity.
  - reflexivity.
  - vm_compute. discriminate.
  - left. reflexivity.
Defined.

(** X14.  When contacts are found but no database can be opened under
    the default name, [fetch_contacts] has already replaced the rows
    of the view when [save_to_database] raises; the database error box
    is the only box shown, the success box is not reached, and the
    exception leaves [fetch_contacts]. *)
Theorem fetch_raises_when_store_unopenable
    (w : World) (status : N) (text : str) :
  strip (url_var w) <> [] ->
  http w (strip (url_var w)) = Responded status text ->
  ((400 <=? status) && (status <? 600))%N = false ->
  parse_contacts text <> [] ->
  files w default_db = Unopenable ->
  fst (fetch_contacts w) = Raise UnboundLocalError /\
  tree (snd (fetch_contacts w)) = map tree_row (parse_contacts text) /\
  dialogs (snd (fetch_contacts w)) = dialogs w ++ [(Error, title_db)] /\
  files (snd (fetch_contacts w)) = files w.
Proof.
  intros Hne Hh Hs Hp Hf.
  destruct (parse_contacts text) as [|c cs] eqn:E; [contradiction|].
  rewrite (fetch_found w Hne Hh Hs E).
  destruct (@connect_failure_escapes
              (with_tree (map tree_row (c :: cs))
                 (with_gets (gets w ++ [(strip (url_var w), 10%N)]) w))
              default_db Hf) as [Hsave _].
  rewrite (@bind_Raise _ _ _ _ _ _ _ _ (Hsave (c :: cs))).
  repeat split; reflexivity.
Qed.

Lemma fetch_raises_when_store_unopenable_witness :
  fst (fetch_contacts MoreSamples.no_store) = Raise UnboundLocalError /\
  tree (snd (fetch_contacts MoreSamples.no_store)) =
    map tree_row (parse_contacts MoreSamples.page_with_two) /\
  dialogs (snd (fetch_contacts MoreSamples.no_store)) =
    dialogs MoreSamples.no_store ++ [(Error, title_db)] /\
  files (snd (fetch_contacts MoreSamples.no_store)) = files MoreSamples.no_store.
Proof.
  apply (@fetch_raises_when_store_unopenable MoreSamples.no_store 200%N
           MoreSamples.page_with_two).
  - vm_compute. discriminate.
  - vm_compute. reflexivity.
  - reflexivity.
  - vm_compute. discriminate.
  - reflexivity.
Defined.




